(** * HashTable: a chained hash table of [int] keys with doubling resize

    Shallow embedding of the C++ class [HashTable] (hash, get_balance_factor,
    resize, the private and the public insert, find, erase, size, print and
    the constructor), followed by the properties of the table that were
    checked against it.  The class [PrefixTree] of the same repository
    (insert, find, get_all_words and its dfs) is embedded in the module
    [PrefixTree], and [CreateGraph] of the graph code in the module
    [GraphCode], with their properties at the end.

    Conventions of the embedding.
    - [int] is a 32-bit two's complement integer, carried as a [Z] in
      [INT_MIN, INT_MAX].  Signed overflow, division by zero and an
      out-of-bounds [operator[]] are undefined behaviour in C++; every
      operation that can meet one returns [option], and [None] stands for
      undefined behaviour.
    - [size_t -> int] conversions ([int K = table_.size()], the second
      argument of [hash]) reduce modulo 2^32 into the signed range.
    - [ListNode*] is the inductive type [ptr]: [nullptr], or a node holding
      [data] and its [next] pointer.  Chains built by the class are acyclic
      and owned by a single bucket, so a chain is the value of its head.
    - [std::vector<ListNode*>] is [list ptr]; [v !! i] and [<[i:=x]> v] are
      stdpp's lookup and update, guarded by the bounds check of [vec_at].
    - A [while] loop that the source does not visibly bound ([find]) is run
      with a fuel counter, and its result type has a case for "still running
      when the fuel ran out". *)

From Stdlib Require Import ZArith QArith Lia.
From stdpp Require Import base list strings gmap.

Local Open Scope Z_scope.

(** ** Machine integers *)

Module Int.

Definition INT_MAX : Z := 2147483647.
Definition INT_MIN : Z := -2147483648.
Definition modulus : Z := 4294967296.

Definition in_range (z : Z) : Prop := INT_MIN <= z <= INT_MAX.

(** Conversion of an unsigned [size_t] value to [int]. *)
Definition of_size_t (n : Z) : Z :=
  (n + 2147483648) mod modulus - 2147483648.

(** [++x] on an [int]: undefined on overflow. *)
Definition incr (x : Z) : option Z :=
  if x <? INT_MAX then Some (x + 1) else None.

(** [a % b] on [int]s: truncated remainder, undefined when [b = 0] and for
    [INT_MIN % -1]. *)
Definition rem (a b : Z) : option Z :=
  if b =? 0 then None
  else if (a =? INT_MIN) && (b =? -1) then None
  else Some (Z.rem a b).

End Int.

(** ** Data model *)

(** [struct ListNode { int data; ListNode* next; }] seen through a pointer. *)
Inductive ptr : Type :=
| nullptr : ptr
| node (data : Z) (next : ptr) : ptr.

(** [std::vector<ListNode*>] *)
Abbreviation vector := (list ptr).

Record HashTable : Type := mkHashTable {
  size_ : Z;
  table_ : vector
}.

(** [v.size()] as an unsigned value. *)
Definition vsize (v : vector) : Z := Z.of_nat (length v).

(** [v[index]] for an [int] index: the index is converted to [size_t], so a
    negative one is far out of bounds. *)
Definition vec_at (v : vector) (index : Z) : option ptr :=
  if index <? 0 then None else v !! Z.to_nat index.

(** [v[index] = p], after the bounds of [v[index]] were checked. *)
Definition vec_set (v : vector) (index : Z) (p : ptr) : vector :=
  <[Z.to_nat index := p]> v.

(** The keys of a chain, head first. *)
Fixpoint keys (head : ptr) : list Z :=
  match head with
  | nullptr => []
  | node data next => data :: keys next
  end.

(** ** The class *)

(** [int hash(int data, int K) { return data % K; }] *)
Definition hash (data K : Z) : option Z := Int.rem data K.

(** [get_balance_factor]: [static_cast<double>(size_) / K] with
    [int K = table_.size()].  Both operands are 32-bit integers, so the
    conversion to [double] is exact and the correctly rounded quotient lies
    on the same side of 0.5 as the rational one (two such quotients differ
    from 1/2 by at least 2^-32 unless they equal it).  The quotient is
    therefore carried as a rational; [K = 0] gives no rational (the double
    is an infinity or a NaN). *)
Definition get_balance_factor (t : HashTable) : option Q :=
  let K := Int.of_size_t (vsize (table_ t)) in
  if K =? 0 then None else Some (inject_Z (size_ t) / inject_Z K)%Q.

(** The test [get_balance_factor() > 0.5].  For [K = 0] the double is
    [+inf] when [size_ > 0] (the test holds) and [NaN] or [-inf] otherwise
    (it fails). *)
Definition balance_factor_exceeds (t : HashTable) : bool :=
  match get_balance_factor t with
  | Some f => negb (Qle_bool f (1 # 2))
  | None => 0 <? size_ t
  end.

(** The walk [while (head->next != nullptr) head = head->next;] followed by
    [head->next = new ListNode{data, nullptr}], on a non-null [head]. *)
Fixpoint link_last (head : ptr) (data : Z) : ptr :=
  match head with
  | nullptr => nullptr
  | node d nullptr => node d (node data nullptr)
  | node d next => node d (link_last next data)
  end.

(** [void insert(int data, std::vector<ListNode*>& table)]: the state it
    touches is the member [size_] and the vector it was handed. *)
Definition insert_into (data : Z) (st : Z * vector) : option (Z * vector) :=
  let '(sz, table) := st in
  index ← hash data (Int.of_size_t (vsize table));
  head ← vec_at table index;
  match head with
  | nullptr =>
      let table' := vec_set table index (node data nullptr) in
      sz' ← Int.incr sz;
      Some (sz', table')
  | node _ _ =>
      let table' := vec_set table index (link_last head data) in
      sz' ← Int.incr sz;
      Some (sz', table')
  end.

(** The inner loop of [resize] over one bucket:
    [while (head) { insert(head->data, new_table); head = head->next; }] *)
Fixpoint rehash_chain (head : ptr) (st : Z * vector) : option (Z * vector) :=
  match head with
  | nullptr => Some st
  | node data next => st' ← insert_into data st; rehash_chain next st'
  end.

(** The outer loop of [resize]: [for (ListNode* head : table_)]. *)
Fixpoint rehash_all (old : vector) (st : Z * vector) : option (Z * vector) :=
  match old with
  | [] => Some st
  | head :: rest => st' ← rehash_chain head st; rehash_all rest st'
  end.

(** [void resize()].  [table_.size() * 2] is [size_t] arithmetic; a vector
    of pointers never holds 2^63 elements, so the product does not wrap. *)
Definition resize (t : HashTable) : option HashTable :=
  let new_table := replicate (2 * length (table_ t)) nullptr in
  '(sz, new_table') ← rehash_all (table_ t) (size_ t, new_table);
  Some (mkHashTable sz new_table').

(** [HashTable(int cap)] *)
Definition HashTable_new (cap : Z) : HashTable :=
  mkHashTable 0 (replicate (Z.to_nat (Z.max cap 10)) nullptr).

(** The public [void insert(int data)]. *)
Definition insert (data : Z) (t : HashTable) : option HashTable :=
  t1 ← (if balance_factor_exceeds t then resize t else Some t);
  '(sz, table') ← insert_into data (size_ t1, table_ t1);
  Some (mkHashTable sz table').

(** Result of a call whose loop is run with fuel. *)
Inductive outcome : Type :=
| Returned (b : bool)
| Undefined
| OutOfFuel.

(** The loop of [find]:
    [while (head) { if (head->data == data) return true; }  return false;]
    The body never assigns [head]; an iteration that does not return goes
    round with the same [head], and costs one unit of fuel. *)
Fixpoint find_loop (fuel : nat) (head : ptr) (data : Z) : outcome :=
  match head with
  | nullptr => Returned false
  | node d _ =>
      if d =? data then Returned true
      else match fuel with
           | O => OutOfFuel
           | S fuel' => find_loop fuel' head data
           end
  end.

(** [bool find(int data)] *)
Definition find (fuel : nat) (t : HashTable) (data : Z) : outcome :=
  match hash data (Int.of_size_t (vsize (table_ t))) with
  | None => Undefined
  | Some index =>
      match vec_at (table_ t) index with
      | None => Undefined
      | Some head => find_loop fuel head data
      end
  end.

(** [bool erase(int data) { /* ... */ return false; }]: the returned value
    and the table after the call. *)
Definition erase (data : Z) (t : HashTable) : bool * HashTable := (false, t).

(** [int size()] *)
Definition size (t : HashTable) : Z := size_ t.

(** [void print()]: the keys written, bucket by bucket, each bucket head
    first.  This is also the enumeration of everything the table stores. *)
Definition print (t : HashTable) : list Z :=
  concat (map keys (table_ t)).

(** ** Runs of the public interface *)

(** A sequence of [insert] calls, stopping at the first undefined one. *)
Fixpoint insert_all (ks : list Z) (t : HashTable) : option HashTable :=
  match ks with
  | [] => Some t
  | k :: ks' => t' ← insert k t; insert_all ks' t'
  end.

(** States a client can produce: construct, then call [insert] and [erase]
    with [int] arguments ([find], [size] and [print] do not touch the
    state). *)
Inductive reachable : HashTable -> Prop :=
| reach_new cap :
    Int.in_range cap -> reachable (HashTable_new cap)
| reach_insert t data t' :
    reachable t -> Int.in_range data -> insert data t = Some t' ->
    reachable t'
| reach_erase t data :
    reachable t -> Int.in_range data -> reachable (snd (erase data t)).

(** Every stored key sits in the bucket its hash names under the current
    bucket count. *)
Definition well_hashed (table : vector) : Prop :=
  forall (i : nat) (head : ptr) (k : Z),
    table !! i = Some head -> k ∈ keys head ->
    hash k (Int.of_size_t (vsize table)) = Some (Z.of_nat i).

(** What a bucket holds once [data] was appended to it by [insert_into]. *)
Definition appended (head : ptr) (data : Z) : ptr :=
  match head with
  | nullptr => node data nullptr
  | node _ _ => link_last head data
  end.

(** [table'] is [table] with [data] appended to the bucket that [hash]
    names. *)
Definition bucket_append (table : vector) (data : Z) (table' : vector) : Prop :=
  exists (i : nat) (head : ptr),
    hash data (Int.of_size_t (vsize table)) = Some (Z.of_nat i) /\
    table !! i = Some head /\
    table' = <[i := appended head data]> table.

(** What a completed run of rehashing did to the state it threads: [ks] are
    the keys it was fed. *)
Definition rehashed (ks : list Z) (st st' : Z * vector) : Prop :=
  fst st' = fst st + Z.of_nat (length ks) /\
  fst st' <= Z.max (fst st) Int.INT_MAX /\
  vsize (snd st') = vsize (snd st) /\
  concat (map keys (snd st')) ≡ₚ concat (map keys (snd st)) ++ ks /\
  (well_hashed (snd st) -> well_hashed (snd st')).

(** The number of keys the table stores. *)
Definition stored (t : HashTable) : Z := Z.of_nat (length (print t)).

(** The keys that [main] inserts, in its order. *)
Definition main_keys : list Z := [1; 15; 1; 2; 3; 1; 12].

(** The keys of bucket [j], head first; none when [j] is no bucket. *)
Definition bucket_keys (table : vector) (j : nat) : list Z :=
  match table !! j with
  | Some head => keys head
  | None => []
  end.

(** Those of [ks], in their order, that [hash] sends to bucket [j] when
    there are [K] buckets. *)
Definition keys_hashing_to (K : Z) (j : nat) (ks : list Z) : list Z :=
  filter (fun k => hash k K = Some (Z.of_nat j)) ks.

(** What a run of inserts of non-negative keys into a table built with
    [c0] buckets keeps true: the keys stay non-negative, the counter never
    undercounts them, stays below seven tenths of the bucket count and
    overcounts by at most seven twentieths of it, and the bucket count is
    linear in the number of keys. *)
Definition run_inv (c0 : Z) (t : HashTable) : Prop :=
  10 <= c0 <= vsize (table_ t) /\
  Forall (fun k => 0 <= k) (print t) /\
  stored t <= size t /\
  10 * (size t + 1) <= 7 * vsize (table_ t) /\
  20 * (size t - stored t) <= 7 * vsize (table_ t) /\
  3 * vsize (table_ t) <= Z.max (3 * c0) (40 * stored t).

(** ** The prefix tree *)

Module PrefixTree.

(** [TreeNode*]: [nullptr], or a node with its 26 child pointers, its
    counter and its end-of-word flag.  The array
    [std::array<TreeNode*, 26> next] is carried as its indexing function;
    only positions below 26 are ever read or written, [index_of] sees to
    that. *)
Inductive TreeNodePtr : Type :=
| null : TreeNodePtr
| tree_node (next : nat -> TreeNodePtr) (cnt : Z) (is_word : bool)
  : TreeNodePtr.

(** [new TreeNode()]: [next.fill(nullptr); cnt = 0; is_word = false;] *)
Definition TreeNode_new : TreeNodePtr := tree_node (fun _ => null) 0 false.

(** The position [c - 'a'] used in [next[c - 'a']]; outside [0, 26) the
    array access is out of bounds, whatever the signedness of [char]. *)
Definition index_of (c : Ascii.ascii) : option nat :=
  let d := Z.of_nat (Ascii.nat_of_ascii c) - 97 in
  if (0 <=? d) && (d <? 26) then Some (Z.to_nat d) else None.

(** [next[i] = p] *)
Definition store (next : nat -> TreeNodePtr) (i : nat) (p : TreeNodePtr)
  : nat -> TreeNodePtr :=
  fun j => if Nat.eqb j i then p else next j.

(** [node->get_node(c)] *)
Definition get_node (node : TreeNodePtr) (c : Ascii.ascii) : option TreeNodePtr :=
  match node with
  | null => None
  | tree_node next _ _ => i ← index_of c; Some (next i)
  end.

(** [node->set_node(c)], giving the node after the call. *)
Definition set_node (node : TreeNodePtr) (c : Ascii.ascii) : option TreeNodePtr :=
  match node with
  | null => None
  | tree_node next cnt w =>
      i ← index_of c; Some (tree_node (store next i TreeNode_new) cnt w)
  end.

(** The node [node] once the subtree behind [next[c - 'a']] has been
    changed into [child] through the pointer stored there. *)
Definition put_node (node : TreeNodePtr) (c : Ascii.ascii) (child : TreeNodePtr)
  : option TreeNodePtr :=
  match node with
  | null => None
  | tree_node next cnt w =>
      i ← index_of c; Some (tree_node (store next i child) cnt w)
  end.

(** The loop of [insert] from the node [curr] on, over what is left of the
    word, then [curr->is_word = true; ++(curr->cnt);].  The result is
    [curr] as the walk leaves it. *)
Fixpoint insert_from (curr : TreeNodePtr) (word : string)
  : option TreeNodePtr :=
  match word with
  | EmptyString =>
      match curr with
      | null => None
      | tree_node next cnt _ =>
          cnt' ← Int.incr cnt; Some (tree_node next cnt' true)
      end
  | String c rest =>
      next ← get_node curr c;
      curr1 ← (match next with
               | null => set_node curr c
               | tree_node _ _ _ => Some curr
               end);
      child ← get_node curr1 c;
      child' ← insert_from child rest;
      put_node curr1 c child'
  end.

(** [void insert(std::string_view word)], on the tree rooted at [root_]. *)
Definition insert (word : string) (root_ : TreeNodePtr)
  : option TreeNodePtr :=
  insert_from root_ word.

(** The loop of [find] from [curr] on, then [return curr->is_word;]. *)
Fixpoint find_from (curr : TreeNodePtr) (word : string) : option bool :=
  match word with
  | EmptyString =>
      match curr with
      | null => None
      | tree_node _ _ w => Some w
      end
  | String c rest =>
      next ← get_node curr c;
      match next with
      | null => Some false
      | tree_node _ _ _ => find_from next rest
      end
  end.

(** [bool find(std::string_view word)] *)
Definition find (word : string) (root_ : TreeNodePtr) : option bool :=
  find_from root_ word.

(** [void dfs(TreeNode* root, std::string& path,
    std::vector<std::string>& ans)]: what it appends to [ans]; [path] is
    the same after the call as before. *)
Fixpoint dfs (root : TreeNodePtr) (path : string) : list string :=
  match root with
  | null => []
  | tree_node next _ _ =>
      flat_map
        (fun i =>
           match next i with
           | null => []
           | tree_node _ _ w =>
               let path' :=
                 path +:+ String (Ascii.ascii_of_nat (97 + i)) EmptyString in
               (if w then [path'] else []) ++ dfs (next i) path'
           end)
        (seq 0 26)
  end.

(** [std::vector<std::string> get_all_words()] *)
Definition get_all_words (root_ : TreeNodePtr) : list string :=
  dfs root_ EmptyString.

(** [PrefixTree() { root_ = new TreeNode(); }] *)
Definition PrefixTree_new : TreeNodePtr := TreeNode_new.

(** A sequence of [insert] calls, stopping at the first undefined one. *)
Fixpoint insert_all (words : list string) (root_ : TreeNodePtr)
  : option TreeNodePtr :=
  match words with
  | [] => Some root_
  | w :: ws => root' ← insert w root_; insert_all ws root'
  end.

(** Words over ['a'..'z']. *)
Fixpoint lowercase (word : string) : Prop :=
  match word with
  | EmptyString => True
  | String c rest => is_Some (index_of c) /\ lowercase rest
  end.

(** The counter of the node that [word] leads to, 0 when there is none. *)
Fixpoint cnt_at (node : TreeNodePtr) (word : string) : Z :=
  match node with
  | null => 0
  | tree_node next cnt _ =>
      match word with
      | EmptyString => cnt
      | String c rest =>
          match index_of c with
          | Some i => cnt_at (next i) rest
          | None => 0
          end
      end
  end.

(** The child that the walk of [insert] steps into from a slot holding
    [p]: the node that is there, or the fresh one [set_node] stores. *)
Definition child_or_new (p : TreeNodePtr) : TreeNodePtr :=
  match p with
  | null => TreeNode_new
  | tree_node _ _ _ => p
  end.

End PrefixTree.

(** ** The adjacency structure of the graph code *)

Module GraphCode.

(** [struct Edge { int a; int b; };] *)
Record Edge : Type := mkEdge { a : Z; b : Z }.

(** [using Graph = std::unordered_map<int, std::unordered_set<int>>;] *)
Abbreviation Graph := (gmap Z (gset Z)).

(** [graph[x]] read as a value: the set stored under [x], the empty set
    that [operator[]] would create when there is none. *)
Definition neighbours (graph : Graph) (x : Z) : gset Z :=
  default ∅ (graph !! x).

(** [ans[x].insert(y);] *)
Definition add_neighbour (ans : Graph) (x y : Z) : Graph :=
  <[x := neighbours ans x ∪ {[y]}]> ans.

(** [Graph CreateGraph(const SimpleGraph& graph)] *)
Definition CreateGraph (graph : list Edge) : Graph :=
  foldl (fun ans edge =>
           add_neighbour (add_neighbour ans (a edge) (b edge))
             (b edge) (a edge))
        ∅ graph.

End GraphCode.

(** ** Machine integer facts *)

Lemma of_size_t_small (n : Z) :
  0 <= n <= Int.INT_MAX -> Int.of_size_t n = n.
Proof.
  intros Hn. unfold Int.of_size_t, Int.modulus, Int.INT_MAX in *.
  rewrite Z.mod_small; lia.
Qed.

Lemma in_range_nonneg_size (n : Z) :
  0 <= n <= Int.INT_MAX -> 1 <= n -> 1 <= Int.of_size_t n.
Proof. intros H1 H2. rewrite of_size_t_small; lia. Qed.

Lemma of_size_t_pos_le (n : Z) :
  0 <= n -> 1 <= Int.of_size_t n -> Int.of_size_t n <= n.
Proof.
  unfold Int.of_size_t, Int.modulus. intros Hn Hpos.
  pose proof (Z.div_mod (n + 2147483648) 4294967296 ltac:(lia)) as Hdm.
  pose proof (Z.mod_pos_bound (n + 2147483648) 4294967296 ltac:(lia)) as Hb.
  assert (0 <= (n + 2147483648) / 4294967296)
    by (apply Z.div_pos; lia).
  lia.
Qed.

Lemma rem_nonneg_spec (a b : Z) :
  0 <= a -> 1 <= b ->
  Int.rem a b = Some (Z.rem a b) /\ 0 <= Z.rem a b < b.
Proof.
  intros Ha Hb. unfold Int.rem.
  destruct (Z.eqb_spec b 0); [lia|].
  destruct (Z.eqb_spec a Int.INT_MIN) as [->|]; [unfold Int.INT_MIN in Ha; lia|].
  simpl. split; [reflexivity|]. apply Z.rem_bound_pos; lia.
Qed.

Lemma rem_negative_spec (a b : Z) :
  a < 0 -> 1 <= b -> Z.rem a b <> 0 ->
  Int.rem a b = Some (Z.rem a b) /\ Z.rem a b < 0.
Proof.
  intros Ha Hb Hnz. unfold Int.rem.
  destruct (Z.eqb_spec b 0); [lia|].
  destruct (Z.eqb_spec b (-1)); [lia|].
  rewrite andb_false_r. split; [reflexivity|].
  pose proof (Z.rem_nonpos a b ltac:(lia) ltac:(lia)). lia.
Qed.

Lemma incr_Some (x y : Z) :
  Int.incr x = Some y <-> x < Int.INT_MAX /\ y = x + 1.
Proof.
  unfold Int.incr. destruct (Z.ltb_spec x Int.INT_MAX); split.
  - intros [= <-]. lia.
  - intros [_ ->]. reflexivity.
  - discriminate.
  - lia.
Qed.

(** ** Vectors and chains *)

Lemma vec_at_Some (v : vector) (index : Z) (p : ptr) :
  vec_at v index = Some p <-> 0 <= index /\ v !! Z.to_nat index = Some p.
Proof.
  unfold vec_at. destruct (Z.ltb_spec index 0); split.
  - discriminate.
  - intros [? _]. lia.
  - intros Hp. split; [lia|exact Hp].
  - intros [_ Hp]. exact Hp.
Qed.

Lemma vec_at_in_bounds (v : vector) (index : Z) :
  0 <= index < vsize v -> exists p, vec_at v index = Some p.
Proof.
  intros [H0 Hlt]. unfold vsize in Hlt.
  destruct (lookup_lt_is_Some_2 v (Z.to_nat index) ltac:(lia)) as [p Hp].
  exists p. apply vec_at_Some. auto.
Qed.

Lemma vec_at_negative (v : vector) (index : Z) :
  index < 0 -> vec_at v index = None.
Proof.
  intros H. unfold vec_at. destruct (Z.ltb_spec index 0); [reflexivity|lia].
Qed.

Lemma vsize_vec_set (v : vector) (index : Z) (p : ptr) :
  vsize (vec_set v index p) = vsize v.
Proof. unfold vsize, vec_set. rewrite length_insert. reflexivity. Qed.

Lemma keys_link_last (head : ptr) (data : Z) :
  head <> nullptr -> keys (link_last head data) = keys head ++ [data].
Proof.
  induction head as [|d next IH]; [congruence|]. intros _.
  destruct next as [|d' next']; [reflexivity|].
  specialize (IH ltac:(discriminate)).
  simpl in *. f_equal. exact IH.
Qed.

Lemma keys_appended (head : ptr) (data : Z) :
  keys (appended head data) = keys head ++ [data].
Proof. destruct head; [reflexivity|apply keys_link_last; discriminate]. Qed.

(** ** The private insert *)

(** The two branches of [insert_into] store the same chain. *)
Lemma insert_into_unfold (data sz : Z) (table : vector) :
  insert_into data (sz, table) =
    (index ← hash data (Int.of_size_t (vsize table));
     head ← vec_at table index;
     sz' ← Int.incr sz;
     Some (sz', vec_set table index (appended head data))).
Proof.
  unfold insert_into.
  destruct (hash data _) as [index|]; [|reflexivity]. simpl.
  destruct (vec_at table index) as [[|d next]|]; reflexivity.
Qed.

Lemma insert_into_inv (data sz sz' : Z) (table table' : vector) :
  insert_into data (sz, table) = Some (sz', table') ->
  sz < Int.INT_MAX /\ sz' = sz + 1 /\ bucket_append table data table'.
Proof.
  rewrite insert_into_unfold.
  destruct (hash data _) as [index|] eqn:Hh; [|discriminate]. simpl.
  destruct (vec_at table index) as [head|] eqn:Hat; [|discriminate]. simpl.
  destruct (Int.incr sz) as [s|] eqn:Hi; [|discriminate]. simpl.
  intros [= <- <-]. apply incr_Some in Hi as [Hlt ->].
  apply vec_at_Some in Hat as [H0 Hat].
  repeat split; try assumption.
  exists (Z.to_nat index), head. rewrite Z2Nat.id by assumption. auto.
Qed.

Lemma insert_into_succeeds (data sz : Z) (table : vector) :
  0 <= data -> 1 <= Int.of_size_t (vsize table) -> sz < Int.INT_MAX ->
  exists table', insert_into data (sz, table) = Some (sz + 1, table').
Proof.
  intros Hd HK Hsz. rewrite insert_into_unfold. unfold hash.
  destruct (rem_nonneg_spec data _ Hd HK) as [-> Hr]. simpl.
  pose proof (of_size_t_pos_le (vsize table) ltac:(unfold vsize; lia) HK).
  destruct (vec_at_in_bounds table (Z.rem data (Int.of_size_t (vsize table))))
    as [head ->]; [lia|]. simpl.
  assert (Hi : Int.incr sz = Some (sz + 1)) by (apply incr_Some; auto).
  rewrite Hi. simpl. eauto.
Qed.

Section BucketAppend.
Context (table table' : vector) (data : Z).
Hypothesis Happ : bucket_append table data table'.

Lemma bucket_append_length : length table' = length table.
Proof. destruct Happ as (i & head & _ & _ & ->). apply length_insert. Qed.

Lemma bucket_append_vsize : vsize table' = vsize table.
Proof. unfold vsize. rewrite bucket_append_length. reflexivity. Qed.

Lemma bucket_append_keys :
  concat (map keys table') ≡ₚ concat (map keys table) ++ [data].
Proof.
  destruct Happ as (i & head & _ & Hlook & ->).
  rewrite insert_take_drop by (eapply lookup_lt_Some; eassumption).
  rewrite <- (take_drop_middle table i head Hlook) at 3.
  rewrite !map_app, !concat_app. simpl. rewrite keys_appended.
  rewrite <- !(assoc_L (++)). do 2 apply Permutation_app_head.
  apply Permutation_app_comm.
Qed.

Lemma bucket_append_well_hashed : well_hashed table -> well_hashed table'.
Proof.
  intros Hwh j head' k Hlook Hin.
  rewrite bucket_append_vsize.
  destruct Happ as (i & head & Hhash & Hi & ->).
  apply list_lookup_insert_Some in Hlook as [(<- & <- & _)|[Hne Hlook]].
  - rewrite keys_appended in Hin. apply elem_of_app in Hin as [Hin|Hin].
    + eapply Hwh; eassumption.
    + apply list_elem_of_singleton in Hin as ->. exact Hhash.
  - eapply Hwh; eassumption.
Qed.
End BucketAppend.

(** ** The loops of [resize] *)

Lemma rehashed_nil (st : Z * vector) : rehashed [] st st.
Proof.
  unfold rehashed. rewrite app_nil_r. cbn [length].
  refine (conj _ (conj _ (conj _ (conj _ _)))); try reflexivity; try lia; auto.
Qed.

Lemma rehashed_trans (ks1 ks2 : list Z) (st1 st2 st3 : Z * vector) :
  rehashed ks1 st1 st2 -> rehashed ks2 st2 st3 ->
  rehashed (ks1 ++ ks2) st1 st3.
Proof.
  intros (Hs1 & Hb1 & Hv1 & Hp1 & Hw1) (Hs2 & Hb2 & Hv2 & Hp2 & Hw2).
  unfold rehashed. rewrite length_app.
  refine (conj _ (conj _ (conj _ (conj _ _)))).
  - lia.
  - lia.
  - congruence.
  - rewrite Hp2, Hp1. rewrite (assoc_L (++)). reflexivity.
  - auto.
Qed.

Lemma insert_into_rehashed (data : Z) (st st' : Z * vector) :
  insert_into data st = Some st' -> rehashed [data] st st'.
Proof.
  destruct st as [sz tb], st' as [sz' tb']. intros H.
  apply insert_into_inv in H as (Hlt & -> & Happ).
  unfold rehashed. cbn [fst snd length].
  refine (conj _ (conj _ (conj _ (conj _ _)))).
  - lia.
  - lia.
  - eapply bucket_append_vsize; eassumption.
  - eapply bucket_append_keys; eassumption.
  - eapply bucket_append_well_hashed; eassumption.
Qed.

Lemma rehash_chain_inv (head : ptr) (st st' : Z * vector) :
  rehash_chain head st = Some st' -> rehashed (keys head) st st'.
Proof.
  revert st. induction head as [|data next IH]; intros st; simpl.
  - intros [= <-]. apply rehashed_nil.
  - destruct (insert_into data st) as [st1|] eqn:H1; [|discriminate].
    simpl. intros H2.
    apply (rehashed_trans [data] (keys next) st st1 st');
      [apply insert_into_rehashed|apply IH]; assumption.
Qed.

Lemma rehash_all_inv (old : vector) (st st' : Z * vector) :
  rehash_all old st = Some st' -> rehashed (concat (map keys old)) st st'.
Proof.
  revert st. induction old as [|head rest IH]; intros st; simpl.
  - intros [= <-]. apply rehashed_nil.
  - destruct (rehash_chain head st) as [st1|] eqn:H1; [|discriminate].
    simpl. intros H2.
    eapply rehashed_trans; [apply rehash_chain_inv|apply IH]; eassumption.
Qed.

(** Rehashing runs to completion when the keys are non-negative, the bucket
    count converts to a positive [int] and the counter has room. *)
Lemma rehash_chain_succeeds (head : ptr) (st : Z * vector) :
  Forall (fun k => 0 <= k) (keys head) ->
  1 <= Int.of_size_t (vsize (snd st)) ->
  fst st + Z.of_nat (length (keys head)) <= Int.INT_MAX ->
  exists st', rehash_chain head st = Some st'.
Proof.
  revert st. induction head as [|data next IH]; intros [sz tb];
    cbn [rehash_chain keys fst snd length].
  - eauto.
  - intros Hks HK Hsz. apply Forall_cons in Hks as [Hd Hks].
    destruct (insert_into_succeeds data sz tb Hd HK ltac:(lia)) as [tb' H1].
    rewrite H1. simpl. apply IH; simpl.
    + assumption.
    + apply insert_into_rehashed in H1 as (_ & _ & Hv & _). simpl in Hv.
      rewrite Hv. assumption.
    + lia.
Qed.

Lemma rehash_all_succeeds (old : vector) (st : Z * vector) :
  Forall (fun k => 0 <= k) (concat (map keys old)) ->
  1 <= Int.of_size_t (vsize (snd st)) ->
  fst st + Z.of_nat (length (concat (map keys old))) <= Int.INT_MAX ->
  exists st', rehash_all old st = Some st'.
Proof.
  revert st. induction old as [|head rest IH]; intros st; simpl.
  - eauto.
  - rewrite length_app. intros Hks HK Hsz.
    apply Forall_app in Hks as [Hh Hr].
    destruct (rehash_chain_succeeds head st Hh HK ltac:(lia)) as [st1 H1].
    rewrite H1. simpl.
    apply rehash_chain_inv in H1 as (Hs & _ & Hv & _).
    apply IH; [assumption|rewrite Hv; assumption|lia].
Qed.

Lemma well_hashed_replicate (n : nat) : well_hashed (replicate n nullptr).
Proof.
  intros i head k Hlook Hin.
  apply lookup_replicate in Hlook as [-> _]. inversion Hin.
Qed.

Lemma print_replicate (n : nat) :
  concat (map keys (replicate n nullptr)) = [].
Proof. induction n as [|n IH]; [reflexivity|exact IH]. Qed.

(** What a completed [resize] did. *)
Lemma resize_inv (t t' : HashTable) :
  resize t = Some t' ->
  length (table_ t') = (2 * length (table_ t))%nat /\
  print t' ≡ₚ print t /\
  well_hashed (table_ t') /\
  size_ t' = size_ t + Z.of_nat (length (print t)) /\
  size_ t' <= Z.max (size_ t) Int.INT_MAX.
Proof.
  unfold resize.
  destruct (rehash_all _ _) as [[sz nt]|] eqn:H; [|discriminate].
  simpl. intros [= <-]. simpl.
  apply rehash_all_inv in H as (Hs & Hb & Hv & Hp & Hw). simpl in *.
  rewrite print_replicate in Hp. simpl in Hp.
  unfold vsize in Hv. rewrite length_replicate in Hv.
  repeat split; try assumption.
  - lia.
  - apply Hw, well_hashed_replicate.
Qed.

(** [resize] runs to completion when the stored keys are non-negative and
    the doubled bucket count and the counter stay within [int]. *)
Lemma resize_succeeds (t : HashTable) :
  Forall (fun k => 0 <= k) (print t) ->
  2 * vsize (table_ t) <= Int.INT_MAX ->
  size_ t + stored t <= Int.INT_MAX ->
  exists t', resize t = Some t'.
Proof.
  intros Hks Hfit Hsz. unfold resize, stored, print in *.
  destruct (table_ t) as [|head rest] eqn:Htab.
  - simpl. eauto.
  - destruct (rehash_all_succeeds (head :: rest)
                (size_ t, replicate (2 * length (head :: rest)) nullptr))
      as [[sz nt] ->].
    + exact Hks.
    + cbn [snd]. unfold vsize in *. rewrite length_replicate.
      rewrite of_size_t_small; simpl length in *; lia.
    + exact Hsz.
    + simpl. eauto.
Qed.

(** ** The load-factor test *)

Lemma Qdiv_le_half (s K : Z) :
  1 <= K -> (inject_Z s / inject_Z K <= 1 # 2)%Q <-> 2 * s <= K.
Proof.
  intros HK. destruct K as [|K|K]; try lia.
  unfold Qle, Qdiv, Qmult, Qinv, inject_Z. simpl. lia.
Qed.

Lemma balance_factor_exceeds_spec (t : HashTable) :
  1 <= Int.of_size_t (vsize (table_ t)) ->
  balance_factor_exceeds t = (Int.of_size_t (vsize (table_ t)) <? 2 * size_ t).
Proof.
  intros HK. unfold balance_factor_exceeds, get_balance_factor.
  destruct (Z.eqb_spec (Int.of_size_t (vsize (table_ t))) 0); [lia|].
  destruct (Z.ltb_spec (Int.of_size_t (vsize (table_ t))) (2 * size_ t)).
  - apply negb_true_iff, not_true_iff_false.
    rewrite Qle_bool_iff, Qdiv_le_half by assumption. lia.
  - apply negb_false_iff. rewrite Qle_bool_iff, Qdiv_le_half by assumption.
    lia.
Qed.

Lemma vsize_new (cap : Z) : vsize (table_ (HashTable_new cap)) = Z.max cap 10.
Proof. unfold vsize. simpl. rewrite length_replicate. lia. Qed.

(** ** The public insert *)

(** The two ways a completed [insert] went. *)
Lemma insert_inv (data : Z) (t t' : HashTable) :
  insert data t = Some t' ->
  (balance_factor_exceeds t = false /\
   size_ t' = size_ t + 1 /\
   bucket_append (table_ t) data (table_ t'))
  \/
  (balance_factor_exceeds t = true /\
   exists t1, resize t = Some t1 /\
     size_ t' = size_ t1 + 1 /\
     bucket_append (table_ t1) data (table_ t')).
Proof.
  unfold insert. destruct (balance_factor_exceeds t).
  - destruct (resize t) as [t1|] eqn:Hr; [|discriminate]. cbn -[insert_into].
    destruct (insert_into data _) as [[sz tb]|] eqn:Hi; [|discriminate].
    simpl. intros [= <-]. simpl.
    apply insert_into_inv in Hi as (_ & -> & Happ). right. eauto.
  - cbn -[insert_into].
    destruct (insert_into data _) as [[sz tb]|] eqn:Hi; [|discriminate].
    simpl. intros [= <-]. simpl.
    apply insert_into_inv in Hi as (_ & -> & Happ). left. auto.
Qed.

(** An insert that finds the load factor at or below one half adds one key
    and leaves the bucket count alone. *)
Lemma insert_without_resize (data : Z) (t : HashTable) :
  0 <= data -> 1 <= Int.of_size_t (vsize (table_ t)) ->
  size_ t < Int.INT_MAX -> balance_factor_exceeds t = false ->
  exists t', insert data t = Some t' /\
    size t' = size t + 1 /\
    vsize (table_ t') = vsize (table_ t) /\
    print t' ≡ₚ print t ++ [data].
Proof.
  intros Hd HK Hsz Hb. unfold insert. rewrite Hb. cbn -[insert_into].
  destruct (insert_into_succeeds data (size_ t) (table_ t) Hd HK Hsz)
    as [tb Hi].
  rewrite Hi. simpl. eexists. split; [reflexivity|].
  apply insert_into_inv in Hi as (_ & _ & Happ). unfold size, print. simpl.
  split; [reflexivity|]. split.
  - eapply bucket_append_vsize; eassumption.
  - eapply bucket_append_keys; eassumption.
Qed.

(** ** The loop of [find] *)

Lemma find_loop_null (fuel : nat) (data : Z) :
  find_loop fuel nullptr data = Returned false.
Proof. destruct fuel; reflexivity. Qed.


(** A first node that differs from the key keeps the loop busy for as long
    as it is run: no amount of fuel lets it return. *)
Lemma find_loop_stuck (fuel : nat) (d : Z) (next : ptr) (data : Z) :
  d <> data -> find_loop fuel (node d next) data = OutOfFuel.
Proof.
  intros Hne. induction fuel as [|fuel IH]; simpl;
    destruct (Z.eqb_spec d data); try contradiction; [reflexivity|exact IH].
Qed.

(** The loop itself has no undefined step. *)
Lemma find_loop_defined (fuel : nat) (head : ptr) (data : Z) :
  find_loop fuel head data <> Undefined.
Proof.
  induction fuel as [|fuel IH]; destruct head as [|d next]; simpl;
    try congruence; destruct (d =? data); congruence.
Qed.

(** [n / K <= 1/2 + 1/K] over the rationals, from the integers. *)
Lemma half_plus_one_share (n K : Z) :
  1 <= K -> 2 * (n - 1) <= K ->
  (inject_Z n / inject_Z K <= (1 # 2) + 1 / inject_Z K)%Q.
Proof.
  intros HK Hn. destruct K as [|K|K]; try lia.
  unfold Qle, Qplus, Qdiv, Qmult, Qinv, inject_Z. simpl. nia.
Qed.

(** The public insert runs to completion on a non-negative key when the
    stored keys are non-negative and, should it resize, the doubled bucket
    count and the counter stay within [int]. *)
Lemma insert_succeeds (data : Z) (t : HashTable) :
  0 <= data -> Forall (fun k => 0 <= k) (print t) ->
  1 <= vsize (table_ t) -> 2 * vsize (table_ t) <= Int.INT_MAX ->
  size_ t + stored t < Int.INT_MAX ->
  exists t', insert data t = Some t'.
Proof.
  intros Hd Hks Hc Hfit Hsz. unfold insert.
  assert (0 <= stored t) by (unfold stored; lia).
  destruct (balance_factor_exceeds t).
  - destruct (resize_succeeds t Hks Hfit ltac:(lia)) as [t1 Hres].
    rewrite Hres. cbn -[insert_into].
    apply resize_inv in Hres as (Hlen & _ & _ & Hs & _).
    destruct (insert_into_succeeds data (size_ t1) (table_ t1) Hd)
      as [tb Hi].
    + apply in_range_nonneg_size; unfold vsize in *; lia.
    + unfold stored in *. lia.
    + rewrite Hi. simpl. eauto.
  - cbn -[insert_into].
    destruct (insert_into_succeeds data (size_ t) (table_ t) Hd) as [tb Hi].
    + apply in_range_nonneg_size; lia.
    + lia.
    + rewrite Hi. simpl. eauto.
Qed.

(** ** Invariants of reachable states *)

(** The bucket count never drops below the floor of the constructor, the
    counter never undercounts the stored keys, and while the bucket count
    fits an [int] the counter stays below seven tenths of it. *)
Lemma reachable_inv (t : HashTable) :
  reachable t ->
  10 <= vsize (table_ t) /\
  Z.of_nat (length (print t)) <= size_ t /\
  (vsize (table_ t) <= Int.INT_MAX ->
   10 * (size_ t + 1) <= 7 * vsize (table_ t)).
Proof.
  induction 1 as [cap Hcap|t data t' Hr (IHc & IHn & IHb) Hd Hins|t data Hr IH Hd].
  - rewrite vsize_new. unfold print. simpl. rewrite print_replicate. simpl.
    lia.
  - apply insert_inv in Hins
      as [(Hb & Hs & Happ)|(Hb & t1 & Hres & Hs & Happ)].
    + pose proof (bucket_append_vsize _ _ _ Happ) as Hv.
      pose proof (Permutation_length (bucket_append_keys _ _ _ Happ)) as Hl.
      rewrite length_app in Hl. simpl in Hl. unfold print in *.
      rewrite Hv, Hs. repeat split; [lia|lia|]. intros Hfit.
      rewrite balance_factor_exceeds_spec in Hb
        by (apply in_range_nonneg_size; lia).
      rewrite of_size_t_small in Hb by lia.
      apply Z.ltb_ge in Hb. lia.
    + pose proof (bucket_append_vsize _ _ _ Happ) as Hv.
      pose proof (Permutation_length (bucket_append_keys _ _ _ Happ)) as Hl.
      rewrite length_app in Hl. simpl in Hl.
      apply resize_inv in Hres as (Hlen & Hperm & _ & Hs1 & _).
      apply Permutation_length in Hperm. unfold print in *.
      unfold vsize in *. rewrite Hv, Hs, Hs1, Hlen.
      repeat split; lia.
  - exact IH.
Qed.

(** What the table stores after a completed insert. *)
Lemma insert_print (data : Z) (t t' : HashTable) :
  insert data t = Some t' -> print t' ≡ₚ print t ++ [data].
Proof.
  intros Hins. unfold print.
  apply insert_inv in Hins as [(_ & _ & Happ)|(_ & t1 & Hres & _ & Happ)].
  - eapply bucket_append_keys; eassumption.
  - rewrite (bucket_append_keys _ _ _ Happ).
    apply resize_inv in Hres as (_ & Hperm & _). unfold print in Hperm.
    rewrite Hperm. reflexivity.
Qed.

Lemma insert_all_print (ks : list Z) (t t' : HashTable) :
  insert_all ks t = Some t' -> print t' ≡ₚ print t ++ ks.
Proof.
  revert t. induction ks as [|k ks IH]; intros t; simpl.
  - intros [= <-]. rewrite app_nil_r. reflexivity.
  - destruct (insert k t) as [t1|] eqn:H1; [|discriminate]. simpl.
    intros H2. rewrite (IH _ H2), (insert_print _ _ _ H1).
    rewrite <- (assoc_L (++)). reflexivity.
Qed.

Lemma insert_all_reachable (ks : list Z) (t t' : HashTable) :
  reachable t -> Forall Int.in_range ks ->
  insert_all ks t = Some t' -> reachable t'.
Proof.
  revert t. induction ks as [|k ks IH]; intros t Hr Hks; simpl.
  - intros [= <-]. exact Hr.
  - apply Forall_cons in Hks as [Hk Hks].
    destruct (insert k t) as [t1|] eqn:H1; [|discriminate]. simpl.
    apply IH; [|exact Hks]. eapply reach_insert; eassumption.
Qed.

(** In every reachable state each stored key is found where [hash] under
    the current bucket count says. *)
Lemma reachable_well_hashed (t : HashTable) :
  reachable t -> well_hashed (table_ t).
Proof.
  induction 1 as [cap Hcap|t data t' Hr IH Hd Hins|t data Hr IH Hd].
  - apply well_hashed_replicate.
  - apply insert_inv in Hins as [(_ & _ & Happ)|(_ & t1 & Hres & _ & Happ)].
    + eapply bucket_append_well_hashed; eassumption.
    + apply resize_inv in Hres as (_ & _ & Hwh & _).
      eapply bucket_append_well_hashed; eassumption.
  - exact IH.
Qed.

(** X3: the counter divided by the bucket count stays below 0.7 in every
    reachable state whose bucket count fits an [int]. *)
Theorem load_factor_below_seven_tenths (t : HashTable) :
  reachable t -> vsize (table_ t) <= Int.INT_MAX ->
  exists f, get_balance_factor t = Some f /\ (f < 7 # 10)%Q.
Proof.
  intros Hr Hfit. destruct (reachable_inv t Hr) as (Hc & _ & Hb).
  specialize (Hb Hfit). unfold get_balance_factor.
  rewrite of_size_t_small by lia.
  destruct (Z.eqb_spec (vsize (table_ t)) 0); [lia|].
  eexists. split; [reflexivity|].
  destruct (vsize (table_ t)) as [|K|K]; try lia.
  unfold Qlt, Qdiv, Qmult, Qinv, inject_Z. simpl. lia.
Qed.

(** ** The hasher (claims C9, C10) *)

(** C9: for a non-negative key and a capacity of at least 1, [hash] yields
    one index [i], always the same, with [0 <= i < capacity]; in a bucket
    store of that capacity the access [table[i]] made by the private insert
    and by [find] is inside the store, so neither call is undefined on
    account of it. *)
Theorem hash_index_in_bounds (key cap : Z) :
  0 <= key -> 1 <= cap ->
  exists i,
    hash key cap = Some i /\
    (forall j, hash key cap = Some j -> j = i) /\
    0 <= i < cap /\
    (forall table : vector,
       Int.of_size_t (vsize table) = cap ->
       is_Some (vec_at table i) /\
       (forall sz, sz < Int.INT_MAX ->
          is_Some (insert_into key (sz, table)))) /\
    (forall fuel t,
       Int.of_size_t (vsize (table_ t)) = cap ->
       find fuel t key <> Undefined).
Proof.
  intros Hkey Hcap. exists (Z.rem key cap).
  destruct (rem_nonneg_spec key cap Hkey Hcap) as [Hh Hi].
  assert (Hat : forall table : vector, Int.of_size_t (vsize table) = cap ->
                exists p, vec_at table (Z.rem key cap) = Some p).
  { intros table HK. apply vec_at_in_bounds.
    pose proof (of_size_t_pos_le (vsize table) ltac:(unfold vsize; lia)).
    lia. }
  split; [exact Hh|]. split; [intros j Hj; unfold hash in Hj; congruence|].
  split; [exact Hi|]. split.
  - intros table HK. split.
    + destruct (Hat table HK) as [p Hp]. rewrite Hp. eauto.
    + intros sz Hsz.
      destruct (insert_into_succeeds key sz table Hkey ltac:(lia) Hsz)
        as [table' Hin]. rewrite Hin. eauto.
  - intros fuel t HK. unfold find, hash. rewrite HK, Hh.
    destruct (Hat (table_ t) HK) as [p ->].
    apply find_loop_defined.
Qed.

Lemma hash_index_in_bounds_witness :
  exists i,
    hash 15 10 = Some i /\
    (forall j, hash 15 10 = Some j -> j = i) /\
    0 <= i < 10 /\
    (forall table : vector,
       Int.of_size_t (vsize table) = 10 ->
       is_Some (vec_at table i) /\
       (forall sz, sz < Int.INT_MAX ->
          is_Some (insert_into 15 (sz, table)))) /\
    (forall fuel t,
       Int.of_size_t (vsize (table_ t)) = 10 ->
       find fuel t 15 <> Undefined).
Proof. apply (hash_index_in_bounds 15 10); lia. Defined.

Lemma rem_double_nonzero (k cap : Z) :
  1 <= cap -> Z.rem k cap <> 0 -> Z.rem k (2 * cap) <> 0.
Proof.
  intros Hcap Hnz Hz. apply Hnz.
  apply Z.rem_divide in Hz; [|lia]. apply Z.rem_divide; [lia|].
  destruct Hz as [q ->]. exists (q * 2). lia.
Qed.

(** C10: a negative key that is not a multiple of the capacity hashes to a
    negative index; [table[index]] is then outside every bucket store, and
    the private insert, the public insert and [find] called with that key
    have undefined behaviour. *)
Theorem hash_negative_key_out_of_bounds (k cap : Z) :
  k < 0 -> 1 <= cap -> ~ (cap | k) ->
  exists i,
    hash k cap = Some i /\ i < 0 /\
    (forall table : vector, vec_at table i = None) /\
    (forall (table : vector) sz,
       Int.of_size_t (vsize table) = cap ->
       insert_into k (sz, table) = None) /\
    (forall t,
       vsize (table_ t) = cap -> 2 * cap <= Int.INT_MAX ->
       insert k t = None) /\
    (forall fuel t,
       Int.of_size_t (vsize (table_ t)) = cap ->
       find fuel t k = Undefined).
Proof.
  intros Hk Hcap Hndiv.
  assert (Hnz : Z.rem k cap <> 0).
  { intros Hz. apply Hndiv. apply Z.rem_divide; [lia|exact Hz]. }
  destruct (rem_negative_spec k cap Hk Hcap Hnz) as [Hh Hneg].
  assert (Hinto : forall c (table : vector) sz,
            1 <= c -> Z.rem k c <> 0 ->
            Int.of_size_t (vsize table) = c ->
            insert_into k (sz, table) = None).
  { intros c table sz Hc Hc' HK. rewrite insert_into_unfold. unfold hash.
    rewrite HK.
    destruct (rem_negative_spec k c Hk Hc Hc') as [-> Hn]. simpl.
    rewrite vec_at_negative by exact Hn. reflexivity. }
  exists (Z.rem k cap). split; [exact Hh|]. split; [exact Hneg|].
  split; [intros table; apply vec_at_negative; exact Hneg|].
  split; [intros table sz; apply Hinto; assumption|]. split.
  - intros t Hv Hfit. unfold insert.
    destruct (balance_factor_exceeds t).
    + destruct (resize t) as [t1|] eqn:Hres; [|reflexivity].
      cbn -[insert_into].
      apply resize_inv in Hres as (Hlen & _).
      rewrite (Hinto (2 * cap)); [reflexivity|lia| |].
      * apply rem_double_nonzero; assumption.
      * unfold vsize in *. rewrite Hlen.
        replace (Z.of_nat (2 * length (table_ t))) with (2 * cap) by lia.
        apply of_size_t_small. lia.
    + cbn -[insert_into]. rewrite (Hinto cap); [reflexivity|lia|exact Hnz|].
      rewrite Hv. apply of_size_t_small. lia.
  - intros fuel t HK. unfold find, hash. rewrite HK, Hh.
    rewrite vec_at_negative by exact Hneg. reflexivity.
Qed.

Lemma hash_negative_key_out_of_bounds_witness :
  exists i,
    hash (-3) 10 = Some i /\ i < 0 /\
    (forall table : vector, vec_at table i = None) /\
    (forall (table : vector) sz,
       Int.of_size_t (vsize table) = 10 ->
       insert_into (-3) (sz, table) = None) /\
    (forall t,
       vsize (table_ t) = 10 -> 2 * 10 <= Int.INT_MAX ->
       insert (-3) t = None) /\
    (forall fuel t,
       Int.of_size_t (vsize (table_ t)) = 10 ->
       find fuel t (-3) = Undefined).
Proof.
  apply (hash_negative_key_out_of_bounds (-3) 10); [lia|lia|].
  intros [q Hq]. lia.
Defined.

(** ** [find] (claims C1, C8) *)

(** [find] returns exactly when the bucket is empty or its first node holds
    the key; any other bucket keeps it in the loop. *)
Lemma find_stuck (t : HashTable) (data index d : Z) (next : ptr) :
  hash data (Int.of_size_t (vsize (table_ t))) = Some index ->
  vec_at (table_ t) index = Some (node d next) ->
  d <> data ->
  forall fuel, find fuel t data = OutOfFuel.
Proof.
  intros Hh Hat Hne fuel. unfold find. rewrite Hh, Hat.
  apply find_loop_stuck. exact Hne.
Qed.

(** C1, evaluated where it fails: after [HashTable(10)] and [insert(5)] the
    bucket of 15 holds the single key 5, and [find(15)] is still in its loop
    after any number of iterations; it never returns false. *)
Theorem find_spins_on_mismatch :
  exists t,
    insert 5 (HashTable_new 10) = Some t /\
    print t = [5] /\
    hash 15 (Int.of_size_t (vsize (table_ t))) = hash 5 (Int.of_size_t (vsize (table_ t))) /\
    forall fuel, find fuel t 15 = OutOfFuel.
Proof.
  eexists. split; [vm_compute; reflexivity|].
  split; [reflexivity|]. split; [reflexivity|].
  intros fuel. eapply find_stuck with (index := 5) (d := 5).
  - reflexivity.
  - reflexivity.
  - lia.
Qed.

(** C8: on a freshly constructed table, [find] of a non-negative key
    returns false, whatever capacity was requested and without needing a
    single trip round its loop. *)
Theorem find_on_fresh_table (cap k : Z) (fuel : nat) :
  Int.in_range cap -> 0 <= k ->
  find fuel (HashTable_new cap) k = Returned false.
Proof.
  intros [_ Hcap] Hk. unfold find.
  rewrite vsize_new, of_size_t_small by (unfold Int.INT_MAX in *; lia).
  unfold hash.
  destruct (rem_nonneg_spec k (Z.max cap 10) Hk ltac:(lia)) as [-> Hi].
  unfold vec_at. destruct (Z.ltb_spec (Z.rem k (Z.max cap 10)) 0); [lia|].
  simpl. rewrite lookup_replicate_2 by lia. apply find_loop_null.
Qed.

Lemma find_on_fresh_table_witness :
  Int.in_range 1 /\ 0 <= 999 /\
  find 0 (HashTable_new 1) 999 = Returned false.
Proof.
  assert (Hcap : Int.in_range 1) by (unfold Int.in_range, Int.INT_MIN, Int.INT_MAX; lia).
  assert (Hk : 0 <= 999) by lia.
  split; [exact Hcap|]. split; [exact Hk|].
  exact (find_on_fresh_table 1 999 0 Hcap Hk).
Defined.

(** ** [erase] (claims C5, C7) *)

(** C7: erasing a key that the table does not store returns false and
    leaves the counter and the whole table as they were. *)
Theorem erase_absent_key (t : HashTable) (k : Z) :
  reachable t -> k ∉ print t ->
  fst (erase k t) = false /\
  size (snd (erase k t)) = size t /\
  print (snd (erase k t)) = print t /\
  snd (erase k t) = t.
Proof. intros _ _. unfold erase. simpl. auto. Qed.

Lemma erase_absent_key_witness :
  fst (erase 3 (HashTable_new 10)) = false /\
  size (snd (erase 3 (HashTable_new 10))) = size (HashTable_new 10) /\
  print (snd (erase 3 (HashTable_new 10))) = print (HashTable_new 10) /\
  snd (erase 3 (HashTable_new 10)) = HashTable_new 10.
Proof.
  apply (erase_absent_key (HashTable_new 10) 3).
  - apply reach_new. unfold Int.in_range, Int.INT_MIN, Int.INT_MAX. lia.
  - vm_compute. intros H. inversion H.
Defined.

(** C5, evaluated where it fails: with the key 1 inserted twice into
    [HashTable(10)], [erase(1)] returns false, [size()] stays 2 and both
    copies stay in the bucket; after a second [erase(1)], [find(1)] still
    returns true. *)
Theorem erase_removes_nothing :
  exists t,
    insert_all [1; 1] (HashTable_new 10) = Some t /\
    print t = [1; 1] /\ size t = 2 /\
    fst (erase 1 t) = false /\
    size (snd (erase 1 t)) = 2 /\
    print (snd (erase 1 t)) = [1; 1] /\
    fst (erase 1 (snd (erase 1 t))) = false /\
    forall fuel, find fuel (snd (erase 1 (snd (erase 1 t)))) 1 = Returned true.
Proof.
  eexists. split; [vm_compute; reflexivity|].
  repeat (split; [reflexivity|]).
  intros fuel. destruct fuel; reflexivity.
Qed.

(** ** [resize] (claim C4) *)

(** C4: on a table whose stored keys are non-negative, [resize] runs to
    completion (provided the doubled bucket count and the counter stay
    within [int]), doubles the bucket count, stores the same keys with the
    same multiplicities, and leaves every key in the bucket that [hash]
    names under the new bucket count. *)
Theorem resize_rehashes_every_key (t : HashTable) :
  Forall (fun k => 0 <= k) (print t) ->
  2 * vsize (table_ t) <= Int.INT_MAX ->
  size_ t + stored t <= Int.INT_MAX ->
  exists t',
    resize t = Some t' /\
    vsize (table_ t') = 2 * vsize (table_ t) /\
    print t' ≡ₚ print t /\
    well_hashed (table_ t').
Proof.
  intros Hks Hfit Hsz.
  destruct (resize_succeeds t Hks Hfit Hsz) as [t' Hres].
  exists t'. split; [exact Hres|].
  apply resize_inv in Hres as (Hlen & Hperm & Hwh & _).
  split; [unfold vsize; lia|]. split; assumption.
Qed.

Lemma resize_rehashes_every_key_witness :
  exists t',
    resize (mkHashTable 6 [nullptr; node 1 (node 11 (node 1 nullptr));
                           node 2 nullptr; nullptr; nullptr;
                           node 15 nullptr]) = Some t' /\
    vsize (table_ t') = 2 * 6 /\
    print t' ≡ₚ [1; 11; 1; 2; 15] /\
    well_hashed (table_ t').
Proof.
  apply (resize_rehashes_every_key
           (mkHashTable 6 [nullptr; node 1 (node 11 (node 1 nullptr));
                           node 2 nullptr; nullptr; nullptr;
                           node 15 nullptr])).
  - repeat constructor; lia.
  - vm_compute. discriminate.
  - vm_compute. discriminate.
Defined.

(** ** The public insert (claims C2, C3, C6) *)

(** C2, refuted as stated: after the sixth insert into a fresh table of ten
    buckets the counter is 6 and the balance factor 6/10 exceeds one half;
    the check that would react to it runs at the start of the next call. *)
Lemma load_factor_above_half_after_insert :
  exists t f,
    insert_all [1; 15; 1; 2; 3; 1] (HashTable_new 1) = Some t /\
    size t = 6 /\ vsize (table_ t) = 10 /\
    get_balance_factor t = Some f /\ ~ (f <= 1 # 2)%Q.
Proof.
  eexists _, _. split; [vm_compute; reflexivity|].
  split; [reflexivity|]. split; [reflexivity|].
  split; [vm_compute; reflexivity|].
  unfold Qle. simpl. lia.
Qed.

(** C2, as the code has it: the load factor is tested before the key is
    added, not after.  Immediately after an insert call returns, the keys
    the table stores number at most half the bucket count plus the one just
    added; and when the call did not resize, the same bound holds for the
    balance factor that [size()] and the bucket count give. *)
Theorem insert_load_factor_bound (t t' : HashTable) (data : Z) :
  reachable t ->
  vsize (table_ t') <= Int.INT_MAX ->
  insert data t = Some t' ->
  (inject_Z (stored t') / inject_Z (vsize (table_ t'))
     <= (1 # 2) + 1 / inject_Z (vsize (table_ t')))%Q /\
  (balance_factor_exceeds t = false ->
   exists f, get_balance_factor t' = Some f /\
     (f <= (1 # 2) + 1 / inject_Z (vsize (table_ t')))%Q).
Proof.
  intros Hr Hfit Hins.
  destruct (reachable_inv t Hr) as (Hc & Hn & Hb).
  pose proof (Permutation_length (insert_print _ _ _ Hins)) as Hl.
  rewrite length_app in Hl. simpl in Hl.
  apply insert_inv in Hins
    as [(Hex & Hs & Happ)|(Hex & t1 & Hres & Hs & Happ)];
    apply bucket_append_vsize in Happ.
  - rewrite Happ in *. specialize (Hb Hfit).
    rewrite balance_factor_exceeds_spec in Hex
      by (apply in_range_nonneg_size; lia).
    rewrite of_size_t_small in Hex by lia. apply Z.ltb_ge in Hex.
    split.
    + apply half_plus_one_share; unfold stored; lia.
    + intros _. unfold get_balance_factor.
      rewrite Happ, of_size_t_small by lia.
      destruct (Z.eqb_spec (vsize (table_ t)) 0); [lia|].
      eexists. split; [reflexivity|].
      apply half_plus_one_share; lia.
  - apply resize_inv in Hres as (Hlen & _).
    assert (Hv : vsize (table_ t') = 2 * vsize (table_ t))
      by (unfold vsize in *; lia).
    rewrite Hv in *. specialize (Hb ltac:(lia)).
    split; [|congruence].
    apply half_plus_one_share; unfold stored; lia.
Qed.

Lemma insert_load_factor_bound_witness :
  exists t',
    insert 7 (HashTable_new 10) = Some t' /\
    (inject_Z (stored t') / inject_Z (vsize (table_ t'))
       <= (1 # 2) + 1 / inject_Z (vsize (table_ t')))%Q /\
    (balance_factor_exceeds (HashTable_new 10) = false ->
     exists f, get_balance_factor t' = Some f /\
       (f <= (1 # 2) + 1 / inject_Z (vsize (table_ t')))%Q).
Proof.
  eexists. split; [vm_compute; reflexivity|].
  apply (insert_load_factor_bound (HashTable_new 10) _ 7).
  - apply reach_new. vm_compute. split; discriminate.
  - vm_compute. discriminate.
  - vm_compute. reflexivity.
Defined.

(** C3, evaluated where it fails: the seventh insert of [main] finds
    6/10 > 0.5 and resizes; [resize] re-inserts the six stored keys through
    the private insert, which counts each of them again, so [size()] goes
    from 6 to 13 in one call while the table stores 7 keys. *)
Theorem insert_counts_rehashed_keys_again :
  exists t t',
    insert_all [1; 15; 1; 2; 3; 1] (HashTable_new 10) = Some t /\
    size t = 6 /\ length (print t) = 6%nat /\
    insert 12 t = Some t' /\
    size t' = 13 /\ length (print t') = 7%nat.
Proof.
  eexists _, _. split; [vm_compute; reflexivity|].
  split; [reflexivity|]. split; [reflexivity|].
  split; [vm_compute; reflexivity|]. split; reflexivity.
Qed.

(** C6, refuted as stated: after the seven inserts of [main] into a table
    requested with capacity 1, [size()] is not 7 and the bucket count is
    not 10. *)
Lemma main_scenario_not_7_and_10 :
  exists t,
    insert_all main_keys (HashTable_new 1) = Some t /\
    size t <> 7 /\ vsize (table_ t) <> 10.
Proof.
  eexists. split; [vm_compute; reflexivity|].
  split; vm_compute; discriminate.
Qed.

(** C6, as the code has it: the table is built with ten buckets; the first
    six inserts leave them alone; the seventh finds 6/10 > 0.5 before it
    adds its key and doubles the store, so the seven keys (duplicates
    included) end up in twenty buckets, each in the bucket of its hash. *)
Theorem main_scenario :
  exists t6 t,
    vsize (table_ (HashTable_new 1)) = 10 /\
    insert_all [1; 15; 1; 2; 3; 1] (HashTable_new 1) = Some t6 /\
    vsize (table_ t6) = 10 /\
    balance_factor_exceeds t6 = true /\
    insert_all main_keys (HashTable_new 1) = Some t /\
    vsize (table_ t) = 20 /\
    length (print t) = 7%nat /\
    print t ≡ₚ main_keys /\
    well_hashed (table_ t).
Proof.
  eexists _, _. split; [reflexivity|].
  split; [vm_compute; reflexivity|]. split; [reflexivity|].
  split; [vm_compute; reflexivity|].
  split; [vm_compute; reflexivity|]. split; [reflexivity|].
  split; [reflexivity|]. split.
  - apply (insert_all_print main_keys (HashTable_new 1)). vm_compute. reflexivity.
  - apply reachable_well_hashed.
    apply (insert_all_reachable main_keys (HashTable_new 1)).
    + apply reach_new. vm_compute. split; discriminate.
    + unfold main_keys. repeat constructor; vm_compute; discriminate.
    + vm_compute. reflexivity.
Qed.

(** * Further properties of the class *)

(** ** What one completed insert does *)

(** The test before the insert, read on integers, and the two outcomes. *)
Lemma insert_effect (data : Z) (t t' : HashTable) :
  1 <= vsize (table_ t) <= Int.INT_MAX ->
  insert data t = Some t' ->
  print t' ≡ₚ print t ++ [data] /\
  ((2 * size t <= vsize (table_ t) /\
    vsize (table_ t') = vsize (table_ t) /\
    size t' = size t + 1)
   \/
   (vsize (table_ t) < 2 * size t /\
    vsize (table_ t') = 2 * vsize (table_ t) /\
    size t' = size t + stored t + 1)).
Proof.
  intros Hcap Hins. split; [apply insert_print; exact Hins|].
  pose proof (balance_factor_exceeds_spec t
                ltac:(apply in_range_nonneg_size; lia)) as Hspec.
  rewrite of_size_t_small in Hspec by lia.
  apply insert_inv in Hins
    as [(Hex & Hs & Happ)|(Hex & t1 & Hres & Hs & Happ)];
    apply bucket_append_vsize in Happ; rewrite Hex in Hspec; unfold size.
  - left. symmetry in Hspec. apply Z.ltb_ge in Hspec. auto.
  - right. symmetry in Hspec. apply Z.ltb_lt in Hspec.
    apply resize_inv in Hres as (Hlen & _ & _ & Hs1 & _).
    unfold stored, vsize in *. repeat split; lia.
Qed.

(** X1: a completed insert resizes exactly when twice [size()] exceeds the
    bucket count it finds.  If not, the bucket count stays and [size()]
    grows by one; if so, the bucket count doubles and [size()] grows by the
    number of keys already stored plus one.  Either way the table stores
    the old keys and the new one, and on a non-negative key the first kind
    of call always completes. *)
Theorem insert_resize_policy (data : Z) (t : HashTable) :
  1 <= vsize (table_ t) <= Int.INT_MAX ->
  (0 <= data -> 2 * size t <= vsize (table_ t) ->
   exists t', insert data t = Some t') /\
  (forall t', insert data t = Some t' ->
     print t' ≡ₚ print t ++ [data] /\
     ((2 * size t <= vsize (table_ t) /\
       vsize (table_ t') = vsize (table_ t) /\
       size t' = size t + 1)
      \/
      (vsize (table_ t) < 2 * size t /\
       vsize (table_ t') = 2 * vsize (table_ t) /\
       size t' = size t + stored t + 1))).
Proof.
  intros Hcap. split.
  - intros Hd Hhalf.
    destruct (insert_without_resize data t Hd) as (t' & Hins & _).
    + apply in_range_nonneg_size; lia.
    + unfold size, Int.INT_MAX in *. lia.
    + rewrite balance_factor_exceeds_spec
        by (apply in_range_nonneg_size; lia).
      rewrite of_size_t_small by lia. apply Z.ltb_ge. exact Hhalf.
    + eauto.
  - intros t' Hins. apply insert_effect; assumption.
Qed.

Lemma insert_resize_policy_witness :
  (0 <= 12 -> 2 * size (mkHashTable 3 [node 2 nullptr; node 1 nullptr])
              <= vsize [node 2 nullptr; node 1 nullptr] ->
   exists t', insert 12 (mkHashTable 3 [node 2 nullptr; node 1 nullptr])
              = Some t') /\
  (forall t', insert 12 (mkHashTable 3 [node 2 nullptr; node 1 nullptr])
              = Some t' ->
     print t' ≡ₚ [2; 1] ++ [12] /\
     ((2 * 3 <= 2 /\ vsize (table_ t') = 2 /\ size t' = 3 + 1)
      \/
      (2 < 2 * 3 /\ vsize (table_ t') = 2 * 2 /\
       size t' = 3 + stored (mkHashTable 3 [node 2 nullptr; node 1 nullptr])
                 + 1))).
Proof.
  apply (insert_resize_policy 12
           (mkHashTable 3 [node 2 nullptr; node 1 nullptr])).
  vm_compute. split; discriminate.
Defined.

(** ** Invariants of every reachable state *)

(** X2: in every reachable state each stored key lies in the bucket whose
    index is [hash] of the key under the current bucket count; resizing
    moves the keys so that this stays true. *)
Theorem stored_keys_sit_in_their_hash_bucket
    (t : HashTable) (i : nat) (head : ptr) (k : Z) :
  reachable t ->
  table_ t !! i = Some head -> k ∈ keys head ->
  hash k (Int.of_size_t (vsize (table_ t))) = Some (Z.of_nat i).
Proof.
  intros Hr. revert i head k. fold (well_hashed (table_ t)).
  induction Hr as [cap Hcap|t data t' Hr IH Hd Hins|t data Hr IH Hd].
  - apply well_hashed_replicate.
  - apply insert_inv in Hins as [(_ & _ & Happ)|(_ & t1 & Hres & _ & Happ)].
    + eapply bucket_append_well_hashed; eassumption.
    + apply resize_inv in Hres as (_ & _ & Hwh & _).
      eapply bucket_append_well_hashed; eassumption.
  - exact IH.
Qed.

Lemma stored_keys_sit_in_their_hash_bucket_witness :
  exists t,
    insert_all main_keys (HashTable_new 10) = Some t /\
    hash 15 (Int.of_size_t (vsize (table_ t))) = Some (Z.of_nat 15).
Proof.
  eexists. split; [vm_compute; reflexivity|].
  apply (stored_keys_sit_in_their_hash_bucket _ 15 (node 15 nullptr) 15).
  - apply (insert_all_reachable main_keys (HashTable_new 10)).
    + apply reach_new. vm_compute. split; discriminate.
    + unfold main_keys. repeat constructor; vm_compute; discriminate.
    + vm_compute. reflexivity.
  - reflexivity.
  - simpl. left.
Defined.

Lemma load_factor_below_seven_tenths_witness :
  exists t f,
    insert_all main_keys (HashTable_new 10) = Some t /\
    get_balance_factor t = Some f /\ (f < 7 # 10)%Q.
Proof.
  eexists.
  cut (insert_all main_keys (HashTable_new 10)
       = Some (mkHashTable 13
                 (<[1%nat := node 1 (node 1 (node 1 nullptr))]>
                    (<[2%nat := node 2 nullptr]>
                       (<[3%nat := node 3 nullptr]>
                          (<[12%nat := node 12 nullptr]>
                             (<[15%nat := node 15 nullptr]>
                                (replicate 20 nullptr)))))))).
  - intros Hrun.
    destruct (load_factor_below_seven_tenths _
                (insert_all_reachable main_keys (HashTable_new 10) _
                   (reach_new 10 ltac:(vm_compute; split; discriminate))
                   ltac:(unfold main_keys;
                         repeat constructor; vm_compute; discriminate)
                   Hrun)
                ltac:(vm_compute; discriminate)) as [f Hf].
    exists f. split; [exact Hrun|exact Hf].
  - vm_compute. reflexivity.
Defined.

(** X4: the bucket count only ever doubles: after any completed run of
    inserts into a freshly constructed table it is the constructor's
    [max(cap, 10)] times a power of two, with at most one doubling per
    insert. *)
Theorem bucket_count_is_power_of_two_multiple
    (cap : Z) (ks : list Z) (t : HashTable) :
  insert_all ks (HashTable_new cap) = Some t ->
  exists k : nat,
    (k <= length ks)%nat /\
    vsize (table_ t) = Z.max cap 10 * 2 ^ Z.of_nat k.
Proof.
  rewrite <- vsize_new. generalize (HashTable_new cap). intros t0.
  revert t0. induction ks as [|d ks IH]; intros t0; simpl.
  - intros [= <-]. exists 0%nat. split; [lia|]. simpl. lia.
  - destruct (insert d t0) as [t1|] eqn:H1; [|discriminate]. simpl.
    intros H2. destruct (IH t1 H2) as (k & Hk & Hv).
    apply insert_inv in H1 as [(_ & _ & Happ)|(_ & t' & Hres & _ & Happ)];
      apply bucket_append_vsize in Happ.
    + exists k. split; [lia|]. rewrite Hv, Happ. reflexivity.
    + apply resize_inv in Hres as (Hlen & _).
      exists (S k). split; [lia|]. rewrite Hv, Happ.
      rewrite Nat2Z.inj_succ, Z.pow_succ_r by lia.
      unfold vsize. rewrite Hlen. lia.
Qed.

Lemma bucket_count_is_power_of_two_multiple_witness :
  exists t (k : nat),
    insert_all main_keys (HashTable_new 3) = Some t /\
    (k <= length main_keys)%nat /\
    vsize (table_ t) = Z.max 3 10 * 2 ^ Z.of_nat k.
Proof.
  eexists.
  cut (insert_all main_keys (HashTable_new 3)
       = Some (mkHashTable 13
                 (<[1%nat := node 1 (node 1 (node 1 nullptr))]>
                    (<[2%nat := node 2 nullptr]>
                       (<[3%nat := node 3 nullptr]>
                          (<[12%nat := node 12 nullptr]>
                             (<[15%nat := node 15 nullptr]>
                                (replicate 20 nullptr)))))))).
  - intros Hrun.
    destruct (bucket_count_is_power_of_two_multiple 3 main_keys _ Hrun)
      as (k & Hk & Hv).
    exists k. split; [exact Hrun|]. split; [exact Hk|exact Hv].
  - vm_compute. reflexivity.
Defined.

(** X5: [print] after a completed run of inserts into a fresh table writes
    exactly the inserted keys, each as often as it was inserted: nothing is
    dropped, merged or invented, with or without resizes on the way. *)
Theorem print_after_inserts (cap : Z) (ks : list Z) (t : HashTable) :
  insert_all ks (HashTable_new cap) = Some t ->
  print t ≡ₚ ks /\ stored t = Z.of_nat (length ks).
Proof.
  intros Hrun. apply insert_all_print in Hrun.
  assert (Hnew : print (HashTable_new cap) = [])
    by (unfold print; simpl; apply print_replicate).
  rewrite Hnew in Hrun. simpl in Hrun. split; [exact Hrun|].
  unfold stored. rewrite (Permutation_length Hrun). reflexivity.
Qed.

Lemma print_after_inserts_witness :
  exists t,
    insert_all main_keys (HashTable_new 10) = Some t /\
    print t ≡ₚ main_keys /\ stored t = Z.of_nat (length main_keys).
Proof.
  eexists.
  cut (insert_all main_keys (HashTable_new 10)
       = Some (mkHashTable 13
                 (<[1%nat := node 1 (node 1 (node 1 nullptr))]>
                    (<[2%nat := node 2 nullptr]>
                       (<[3%nat := node 3 nullptr]>
                          (<[12%nat := node 12 nullptr]>
                             (<[15%nat := node 15 nullptr]>
                                (replicate 20 nullptr)))))))).
  - intros Hrun. split; [exact Hrun|].
    exact (print_after_inserts 10 main_keys _ Hrun).
  - vm_compute. reflexivity.
Defined.

(** ** What [find] answers *)






(** ** Where an insert puts its key *)

Lemma bucket_append_bucket_keys
    (table table' : vector) (data : Z) (j : nat) :
  bucket_append table data table' ->
  bucket_keys table' j =
    bucket_keys table j ++
    (if bool_decide (hash data (Int.of_size_t (vsize table))
                     = Some (Z.of_nat j))
     then [data] else []).
Proof.
  intros (i & head & Hhash & Hlook & ->). unfold bucket_keys.
  rewrite Hhash. destruct (decide (i = j)) as [<-|Hne].
  - rewrite bool_decide_eq_true_2 by reflexivity.
    rewrite list_lookup_insert_eq by (eapply lookup_lt_Some; eassumption).
    rewrite Hlook. apply keys_appended.
  - rewrite bool_decide_eq_false_2 by (intros [= H]; lia).
    rewrite list_lookup_insert_ne by exact Hne.
    rewrite app_nil_r. reflexivity.
Qed.

Lemma insert_appends_bucket (t : HashTable) (data : Z) (t' : HashTable) :
  balance_factor_exceeds t = false ->
  insert data t = Some t' ->
  exists i : nat,
    hash data (Int.of_size_t (vsize (table_ t))) = Some (Z.of_nat i) /\
    bucket_keys (table_ t') i = bucket_keys (table_ t) i ++ [data].
Proof.
  intros Hex Hins.
  apply insert_inv in Hins as [(_ & _ & Happ)|(Hex' & _)]; [|congruence].
  pose proof (fun j => bucket_append_bucket_keys _ _ data j Happ) as Hkeys.
  destruct Happ as (i & head & Hhash & _).
  exists i. split; [exact Hhash|].
  rewrite Hkeys, Hhash, bool_decide_eq_true_2 by reflexivity. reflexivity.
Qed.

(** X8: a completed insert that does not resize appends its key at the
    tail of the bucket that [hash] names and leaves every other bucket as
    it was, so within a bucket the keys stay in insertion order. *)
Theorem insert_appends_at_bucket_tail (data : Z) (t t' : HashTable) :
  balance_factor_exceeds t = false ->
  insert data t = Some t' ->
  exists i : nat,
    hash data (Int.of_size_t (vsize (table_ t))) = Some (Z.of_nat i) /\
    bucket_keys (table_ t') i = bucket_keys (table_ t) i ++ [data] /\
    forall j, j <> i -> table_ t' !! j = table_ t !! j.
Proof.
  intros Hex Hins.
  apply insert_inv in Hins as [(_ & _ & Happ)|(Hex' & _)]; [|congruence].
  pose proof (fun j => bucket_append_bucket_keys _ _ data j Happ) as Hkeys.
  destruct Happ as (i & head & Hhash & Hlook & Htab).
  exists i. split; [exact Hhash|]. split.
  - rewrite Hkeys, Hhash, bool_decide_eq_true_2 by reflexivity. reflexivity.
  - intros j Hne. rewrite Htab. apply list_lookup_insert_ne. congruence.
Qed.

Lemma insert_appends_at_bucket_tail_witness :
  exists i : nat,
    hash 15 (Int.of_size_t (vsize (<[5%nat := node 5 nullptr]>
                                     (replicate 10 nullptr))))
    = Some (Z.of_nat i) /\
    bucket_keys (<[5%nat := node 5 (node 15 nullptr)]>
                   (replicate 10 nullptr)) i
    = bucket_keys (<[5%nat := node 5 nullptr]> (replicate 10 nullptr)) i
      ++ [15] /\
    forall j, j <> i ->
      <[5%nat := node 5 (node 15 nullptr)]> (replicate 10 nullptr) !! j
      = <[5%nat := node 5 nullptr]> (replicate 10 nullptr) !! j.
Proof.
  apply (insert_appends_at_bucket_tail 15
           (mkHashTable 1 (<[5%nat := node 5 nullptr]>
                             (replicate 10 nullptr)))
           (mkHashTable 2 (<[5%nat := node 5 (node 15 nullptr)]>
                             (replicate 10 nullptr)))).
  - vm_compute. reflexivity.
  - vm_compute. reflexivity.
Defined.

(** ** Edges of [resize] and of negative keys *)

Lemma keys_nil (head : ptr) : keys head = [] -> head = nullptr.
Proof. destruct head; [reflexivity|discriminate]. Qed.

Lemma rehash_all_no_keys (old : vector) (st : Z * vector) :
  concat (map keys old) = [] -> rehash_all old st = Some st.
Proof.
  induction old as [|head rest IH]; simpl; [reflexivity|].
  intros Hnil. apply app_eq_nil in Hnil as [Hh Hr].
  apply keys_nil in Hh as ->. simpl. apply IH. exact Hr.
Qed.

(** X9: resizing a table that stores no key needs no precondition: it
    returns a table of twice as many empty buckets and leaves the counter
    as it was. *)
Theorem resize_of_empty_table (t : HashTable) :
  print t = [] ->
  resize t =
    Some (mkHashTable (size_ t) (replicate (2 * length (table_ t)) nullptr)).
Proof.
  intros Hnil. unfold resize.
  rewrite rehash_all_no_keys by exact Hnil. reflexivity.
Qed.

Lemma resize_of_empty_table_witness :
  resize (HashTable_new 10) =
    Some (mkHashTable (size_ (HashTable_new 10))
            (replicate (2 * length (table_ (HashTable_new 10))) nullptr)).
Proof. exact (resize_of_empty_table (HashTable_new 10) eq_refl). Defined.

Lemma elem_of_print (t : HashTable) (k : Z) :
  k ∈ print t ->
  exists (i : nat) (head : ptr), table_ t !! i = Some head /\ k ∈ keys head.
Proof.
  unfold print. intros Hin. apply list_elem_of_In, in_concat in Hin
    as (l & Hl & Hk).
  apply in_map_iff in Hl as (head & <- & Hhead).
  apply list_elem_of_In, list_elem_of_lookup in Hhead as [i Hi].
  exists i, head. split; [exact Hi|]. apply list_elem_of_In. exact Hk.
Qed.

(** X10: [resize] has undefined behaviour on a table that stores a
    negative key which is not a multiple of the doubled bucket count: the
    rehash of that key indexes the new store at a negative position. *)
Theorem resize_undefined_with_negative_key (t : HashTable) (k : Z) :
  k ∈ print t -> k < 0 ->
  2 * vsize (table_ t) <= Int.INT_MAX ->
  ~ (2 * vsize (table_ t) | k) ->
  resize t = None.
Proof.
  intros Hin Hk Hfit Hndiv.
  destruct (resize t) as [t'|] eqn:Hres; [exfalso|reflexivity].
  apply resize_inv in Hres as (Hlen & Hperm & Hwh & _).
  assert (Hpos : 1 <= vsize (table_ t)).
  { apply elem_of_print in Hin as (i & head & Hi & _).
    apply lookup_lt_Some in Hi. unfold vsize. lia. }
  rewrite <- Hperm in Hin.
  apply elem_of_print in Hin as (i & head & Hi & Hkh).
  specialize (Hwh i head k Hi Hkh).
  assert (Hv : vsize (table_ t') = 2 * vsize (table_ t))
    by (unfold vsize in *; lia).
  rewrite Hv, of_size_t_small in Hwh by lia. unfold hash in Hwh.
  destruct (rem_negative_spec k (2 * vsize (table_ t)) Hk ltac:(lia))
    as [Hrem Hneg].
  - intros Hz. apply Hndiv. apply Z.rem_divide; [lia|exact Hz].
  - rewrite Hrem in Hwh. injection Hwh as Hwh. lia.
Qed.

Lemma resize_undefined_with_negative_key_witness :
  resize (mkHashTable 1 (<[0%nat := node (-10) nullptr]>
                           (replicate 10 nullptr))) = None.
Proof.
  apply (resize_undefined_with_negative_key
           (mkHashTable 1 (<[0%nat := node (-10) nullptr]>
                             (replicate 10 nullptr)))
           (-10)).
  - vm_compute. left.
  - lia.
  - vm_compute. discriminate.
  - change (~ (20 | -10)). intros [q Hq]. lia.
Defined.

(** X11: a negative key that is a multiple of the bucket count is
    accepted: an insert that does not resize appends it to bucket 0 and
    counts it, like a non-negative key. *)
Theorem negative_multiple_goes_to_bucket_zero (t : HashTable) (k : Z) :
  k < 0 -> (vsize (table_ t) | k) ->
  1 <= vsize (table_ t) <= Int.INT_MAX ->
  2 * size t <= vsize (table_ t) ->
  exists t',
    insert k t = Some t' /\
    bucket_keys (table_ t') 0 = bucket_keys (table_ t) 0 ++ [k] /\
    size t' = size t + 1.
Proof.
  intros Hk Hdiv Hcap Hhalf.
  assert (HK : Int.of_size_t (vsize (table_ t)) = vsize (table_ t))
    by (apply of_size_t_small; lia).
  assert (Hex : balance_factor_exceeds t = false).
  { rewrite balance_factor_exceeds_spec by (rewrite HK; lia).
    rewrite HK. apply Z.ltb_ge. exact Hhalf. }
  assert (Hh : hash k (vsize (table_ t)) = Some 0).
  { unfold hash, Int.rem.
    destruct (Z.eqb_spec (vsize (table_ t)) 0); [lia|].
    destruct (Z.eqb_spec (vsize (table_ t)) (-1)); [lia|].
    rewrite andb_false_r. f_equal. apply Z.rem_divide; [lia|exact Hdiv]. }
  destruct (vec_at_in_bounds (table_ t) 0 ltac:(lia)) as [head Hat].
  assert (Hins : insert k t =
            Some (mkHashTable (size_ t + 1)
                    (vec_set (table_ t) 0 (appended head k)))).
  { unfold insert. rewrite Hex. cbn -[insert_into].
    rewrite insert_into_unfold, HK, Hh. simpl. rewrite Hat. simpl.
    assert (Hi : Int.incr (size_ t) = Some (size_ t + 1))
      by (apply incr_Some; unfold size, Int.INT_MAX in *; lia).
    rewrite Hi. reflexivity. }
  eexists. split; [exact Hins|].
  destruct (insert_appends_bucket t k _ Hex Hins) as (i & Hhi & Hkeys).
  rewrite HK, Hh in Hhi. injection Hhi as Hi0.
  assert (i = 0%nat) as -> by lia.
  split; [exact Hkeys|reflexivity].
Qed.

Lemma negative_multiple_goes_to_bucket_zero_witness :
  exists t',
    insert (-20) (HashTable_new 10) = Some t' /\
    bucket_keys (table_ t') 0
    = bucket_keys (table_ (HashTable_new 10)) 0 ++ [-20] /\
    size t' = size (HashTable_new 10) + 1.
Proof.
  apply (negative_multiple_goes_to_bucket_zero (HashTable_new 10) (-20)).
  - lia.
  - change (10 | -20). exists (-2). lia.
  - vm_compute. split; discriminate.
  - vm_compute. discriminate.
Defined.

(** ** Runs of inserts of non-negative keys *)

Lemma run_inv_new (cap : Z) : run_inv (Z.max cap 10) (HashTable_new cap).
Proof.
  unfold run_inv, stored, size, print. rewrite vsize_new. simpl.
  rewrite print_replicate. simpl. repeat split; try lia. constructor.
Qed.

(** One more insert of a non-negative key completes and keeps [run_inv],
    as long as the doubled bucket count fits an [int]. *)
Lemma run_inv_step (c0 data : Z) (t : HashTable) :
  run_inv c0 t -> 0 <= data -> 2 * vsize (table_ t) <= Int.INT_MAX ->
  exists t',
    insert data t = Some t' /\ run_inv c0 t' /\ stored t' = stored t + 1.
Proof.
  intros (Hc & Hks & Hn & Hb & Ho & Hlin) Hd Hfit. unfold size in *.
  assert (H0 : 0 <= stored t) by (unfold stored; lia).
  destruct (insert_succeeds data t Hd Hks ltac:(lia) Hfit ltac:(lia))
    as [t' Hins].
  exists t'. split; [exact Hins|].
  destruct (insert_effect data t t' ltac:(lia) Hins) as [Hperm Hcases].
  assert (Hst : stored t' = stored t + 1).
  { unfold stored. rewrite (Permutation_length Hperm), length_app.
    simpl. lia. }
  split; [|exact Hst]. unfold run_inv, size in *. rewrite Hst.
  assert (Hks' : Forall (fun k => 0 <= k) (print t')).
  { rewrite Hperm. apply Forall_app. split; [exact Hks|].
    constructor; [exact Hd|constructor]. }
  destruct Hcases as [(Hhalf & -> & ->)|(Hhalf & -> & ->)];
    repeat split; try assumption; lia.
Qed.

Lemma run_inv_run (c0 : Z) (ks : list Z) (t : HashTable) :
  run_inv c0 t -> Forall (fun k => 0 <= k) ks ->
  2 * c0 <= Int.INT_MAX ->
  80 * (stored t + Z.of_nat (length ks)) <= 3 * Int.INT_MAX ->
  exists t',
    insert_all ks t = Some t' /\ run_inv c0 t' /\
    stored t' = stored t + Z.of_nat (length ks).
Proof.
  revert t. induction ks as [|d ks IH]; intros t Hinv Hks Hc0 Hlen.
  - exists t. simpl. split; [reflexivity|]. split; [exact Hinv|lia].
  - apply Forall_cons in Hks as [Hd Hks]. simpl length in Hlen.
    destruct (run_inv_step c0 d t Hinv Hd) as (t1 & H1 & Hinv1 & Hst1).
    { destruct Hinv as (_ & _ & _ & _ & _ & Hlin). lia. }
    destruct (IH t1 Hinv1 Hks Hc0 ltac:(lia)) as (t' & H2 & Hinv' & Hst').
    exists t'. simpl. rewrite H1. simpl.
    split; [exact H2|]. split; [exact Hinv'|simpl length; lia].
Qed.

(** X12: a run of inserts of non-negative keys into a fresh table always
    completes, as long as twice the larger of the initial bucket count and
    (40/3 times) the number of keys fits an [int].  Afterwards the table
    stores the inserted keys, the bucket count is at most the larger of its
    initial value and 40/3 times the number of keys, and [size()] is at
    least the number of keys and below seven tenths of the bucket count. *)
Theorem inserts_of_nonnegative_keys_complete (cap : Z) (ks : list Z) :
  Forall (fun k => 0 <= k) ks ->
  2 * Z.max cap 10 <= Int.INT_MAX ->
  80 * Z.of_nat (length ks) <= 3 * Int.INT_MAX ->
  exists t,
    insert_all ks (HashTable_new cap) = Some t /\
    print t ≡ₚ ks /\
    3 * vsize (table_ t)
      <= Z.max (3 * Z.max cap 10) (40 * Z.of_nat (length ks)) /\
    Z.of_nat (length ks) <= size t /\
    10 * (size t + 1) <= 7 * vsize (table_ t).
Proof.
  intros Hks Hcap Hlen.
  assert (Hs0 : stored (HashTable_new cap) = 0).
  { unfold stored, print. simpl. rewrite print_replicate. reflexivity. }
  destruct (run_inv_run (Z.max cap 10) ks (HashTable_new cap)
              (run_inv_new cap) Hks Hcap ltac:(rewrite Hs0; lia))
    as (t & Hrun & (_ & _ & Hn & Hb & _ & Hlin) & Hst).
  rewrite Hs0 in Hst. simpl in Hst. rewrite Hst in *.
  exists t. split; [exact Hrun|]. split.
  - apply insert_all_print in Hrun. unfold print in Hrun at 2.
    simpl in Hrun. rewrite print_replicate in Hrun. exact Hrun.
  - auto.
Qed.

Lemma inserts_of_nonnegative_keys_complete_witness :
  exists t,
    insert_all main_keys (HashTable_new 1) = Some t /\
    print t ≡ₚ main_keys /\
    3 * vsize (table_ t)
      <= Z.max (3 * Z.max 1 10) (40 * Z.of_nat (length main_keys)) /\
    Z.of_nat (length main_keys) <= size t /\
    10 * (size t + 1) <= 7 * vsize (table_ t).
Proof.
  apply (inserts_of_nonnegative_keys_complete 1 main_keys).
  - unfold main_keys. repeat constructor; lia.
  - vm_compute. discriminate.
  - vm_compute. discriminate.
Defined.

(** ** The order of the keys within a bucket *)

Lemma keys_hashing_to_app (K : Z) (j : nat) (ks1 ks2 : list Z) :
  keys_hashing_to K j (ks1 ++ ks2) =
    keys_hashing_to K j ks1 ++ keys_hashing_to K j ks2.
Proof. apply filter_app. Qed.

Lemma bucket_append_keys_hashing_to
    (table table' : vector) (data : Z) (j : nat) :
  bucket_append table data table' ->
  bucket_keys table' j =
    bucket_keys table j
    ++ keys_hashing_to (Int.of_size_t (vsize table)) j [data].
Proof.
  intros Happ. rewrite (bucket_append_bucket_keys _ _ _ j Happ).
  f_equal. unfold keys_hashing_to. rewrite filter_cons, filter_nil.
  destruct (decide (hash data (Int.of_size_t (vsize table))
                    = Some (Z.of_nat j))) as [Heq|Hne].
  - rewrite bool_decide_eq_true_2 by exact Heq. reflexivity.
  - rewrite bool_decide_eq_false_2 by exact Hne. reflexivity.
Qed.

Lemma rehash_chain_bucket_keys (head : ptr) (st st' : Z * vector) (j : nat) :
  rehash_chain head st = Some st' ->
  bucket_keys (snd st') j =
    bucket_keys (snd st) j
    ++ keys_hashing_to (Int.of_size_t (vsize (snd st))) j (keys head).
Proof.
  revert st. induction head as [|data next IH]; intros st; simpl.
  - intros [= <-]. unfold keys_hashing_to. rewrite filter_nil, app_nil_r.
    reflexivity.
  - destruct (insert_into data st) as [st1|] eqn:H1; [|discriminate].
    simpl. intros H2. rewrite (IH st1 H2).
    destruct st as [sz tb], st1 as [sz1 tb1].
    apply insert_into_inv in H1 as (_ & _ & Happ). simpl.
    rewrite (bucket_append_keys_hashing_to _ _ _ j Happ).
    rewrite (bucket_append_vsize _ _ _ Happ).
    change (data :: keys next) with ([data] ++ keys next).
    rewrite keys_hashing_to_app, (assoc_L (++)). reflexivity.
Qed.

Lemma rehash_all_bucket_keys (old : vector) (st st' : Z * vector) (j : nat) :
  rehash_all old st = Some st' ->
  bucket_keys (snd st') j =
    bucket_keys (snd st) j
    ++ keys_hashing_to (Int.of_size_t (vsize (snd st))) j
         (concat (map keys old)).
Proof.
  revert st. induction old as [|head rest IH]; intros st; simpl.
  - intros [= <-]. unfold keys_hashing_to. rewrite filter_nil, app_nil_r.
    reflexivity.
  - destruct (rehash_chain head st) as [st1|] eqn:H1; [|discriminate].
    simpl. intros H2. rewrite (IH st1 H2).
    rewrite (rehash_chain_bucket_keys head st st1 j H1).
    apply rehash_chain_inv in H1 as (_ & _ & Hv & _). rewrite Hv.
    rewrite keys_hashing_to_app, (assoc_L (++)). reflexivity.
Qed.

Lemma bucket_keys_replicate (n j : nat) :
  bucket_keys (replicate n nullptr) j = [].
Proof.
  unfold bucket_keys.
  destruct (replicate n nullptr !! j) as [head|] eqn:Hl; [|reflexivity].
  apply lookup_replicate in Hl as [-> _]. reflexivity.
Qed.

Lemma resize_bucket_keys (t t' : HashTable) (j : nat) :
  resize t = Some t' ->
  bucket_keys (table_ t') j =
    keys_hashing_to (Int.of_size_t (vsize (table_ t'))) j (print t).
Proof.
  intros Hres.
  destruct (resize_inv t t' Hres) as (Hlen & _).
  unfold resize in Hres.
  destruct (rehash_all _ _) as [[sz nt]|] eqn:Hall; [|discriminate].
  pose proof (rehash_all_bucket_keys _ _ _ j Hall) as Hb.
  cbn [fst snd] in Hb. rewrite bucket_keys_replicate in Hb.
  simpl in Hres. injection Hres as <-. cbn [table_] in *.
  rewrite Hb. unfold vsize. rewrite length_replicate, Hlen. reflexivity.
Qed.

(** X13: [resize] is a stable redistribution.  The new store has twice as
    many buckets, and each of them holds exactly those keys of the old
    table that [hash] sends to it under the doubled bucket count, in the
    order in which [print] listed them before the resize. *)
Theorem resize_keeps_print_order (t t' : HashTable) :
  resize t = Some t' ->
  vsize (table_ t') = 2 * vsize (table_ t) /\
  forall j,
    bucket_keys (table_ t') j =
      keys_hashing_to (Int.of_size_t (vsize (table_ t'))) j (print t).
Proof.
  intros Hres. split.
  - apply resize_inv in Hres as (Hlen & _). unfold vsize. lia.
  - intros j. apply resize_bucket_keys. exact Hres.
Qed.

Lemma resize_keeps_print_order_witness :
  vsize [nullptr; node 1 (node 5 nullptr); node 6 nullptr; nullptr]
  = 2 * vsize [node 6 nullptr; node 1 (node 5 nullptr)] /\
  forall j,
    bucket_keys [nullptr; node 1 (node 5 nullptr); node 6 nullptr; nullptr] j
    = keys_hashing_to
        (Int.of_size_t
           (vsize [nullptr; node 1 (node 5 nullptr); node 6 nullptr; nullptr]))
        j (print (mkHashTable 3 [node 6 nullptr; node 1 (node 5 nullptr)])).
Proof.
  apply (resize_keeps_print_order
           (mkHashTable 3 [node 6 nullptr; node 1 (node 5 nullptr)])
           (mkHashTable 6 [nullptr; node 1 (node 5 nullptr);
                           node 6 nullptr; nullptr])).
  vm_compute. reflexivity.
Defined.

Section StableSelection.
Context (K K2 : Z) (j i0 : nat) (ks : list Z).
Hypothesis Hsel :
  forall k, k ∈ ks ->
    hash k K2 = Some (Z.of_nat j) -> hash k K = Some (Z.of_nat i0).

Lemma keys_hashing_to_same :
  keys_hashing_to K2 j (keys_hashing_to K i0 ks) = keys_hashing_to K2 j ks.
Proof.
  unfold keys_hashing_to. revert Hsel.
  induction ks as [|k l IH]; intros Hs; [reflexivity|].
  assert (Hl : forall k', k' ∈ l -> hash k' K2 = Some (Z.of_nat j) ->
                          hash k' K = Some (Z.of_nat i0))
    by (intros k' Hk'; apply Hs; right; exact Hk').
  specialize (Hs k ltac:(left)).
  rewrite (filter_cons _ k l).
  destruct (decide (hash k K = Some (Z.of_nat i0))) as [Hq|Hq].
  - rewrite !filter_cons. rewrite (IH Hl). reflexivity.
  - rewrite (IH Hl). rewrite filter_cons.
    destruct (decide (hash k K2 = Some (Z.of_nat j))) as [Hp|Hp];
      [|reflexivity].
    exfalso. apply Hq, Hs, Hp.
Qed.

Lemma keys_hashing_to_other (i : nat) :
  i <> i0 ->
  keys_hashing_to K2 j (keys_hashing_to K i ks) = [].
Proof.
  intros Hne. unfold keys_hashing_to. revert Hsel.
  induction ks as [|k l IH]; intros Hs; [reflexivity|].
  assert (Hl : forall k', k' ∈ l -> hash k' K2 = Some (Z.of_nat j) ->
                          hash k' K = Some (Z.of_nat i0))
    by (intros k' Hk'; apply Hs; right; exact Hk').
  specialize (Hs k ltac:(left)).
  rewrite (filter_cons _ k l).
  destruct (decide (hash k K = Some (Z.of_nat i))) as [Hq|Hq].
  - rewrite filter_cons.
    destruct (decide (hash k K2 = Some (Z.of_nat j))) as [Hp|Hp].
    + exfalso. apply Hs in Hp. rewrite Hq in Hp. injection Hp as Hp. lia.
    + apply IH, Hl.
  - apply IH, Hl.
Qed.

Lemma keys_hashing_to_concat (buckets : list nat) :
  NoDup buckets ->
  keys_hashing_to K2 j
    (concat (map (fun i => keys_hashing_to K i ks) buckets)) =
    if decide (i0 ∈ buckets) then keys_hashing_to K2 j ks else [].
Proof.
  induction buckets as [|i l IH]; intros Hnd.
  - simpl. destruct (decide (i0 ∈ [])) as [Hin|_]; [inversion Hin|].
    reflexivity.
  - apply NoDup_cons in Hnd as [Hi Hnd]. simpl.
    rewrite keys_hashing_to_app, (IH Hnd).
    destruct (decide (i = i0)) as [->|Hne].
    + rewrite keys_hashing_to_same.
      destruct (decide (i0 ∈ l)) as [Hin|_]; [contradiction|].
      destruct (decide (i0 ∈ i0 :: l)) as [_|Hout];
        [apply app_nil_r|exfalso; apply Hout; left].
    + rewrite (keys_hashing_to_other i Hne). simpl.
      destruct (decide (i0 ∈ l)) as [Hin|Hout];
        destruct (decide (i0 ∈ i :: l)) as [Hin'|Hout']; try reflexivity.
      * exfalso. apply Hout'. right. exact Hin.
      * exfalso. apply elem_of_cons in Hin' as [Heq|Hin']; auto.
Qed.
End StableSelection.

Lemma print_as_buckets (table : vector) :
  concat (map keys table) =
    concat (map (bucket_keys table) (seq 0 (length table))).
Proof.
  f_equal. apply list_eq. intros i.
  rewrite !list_lookup_fmap. unfold bucket_keys.
  destruct (table !! i) as [head|] eqn:Hl; simpl.
  - apply lookup_lt_Some in Hl as Hlt.
    rewrite (proj2 (lookup_seq 0 (length table) i i)) by (split; [lia|exact Hlt]).
    simpl. rewrite Hl. reflexivity.
  - apply lookup_ge_None in Hl.
    destruct (seq 0 (length table) !! i) as [i'|] eqn:Hs; [|reflexivity].
    apply lookup_seq in Hs. lia.
Qed.

Lemma hash_halved (k K : Z) (j : nat) :
  0 <= k -> 1 <= K ->
  hash k (2 * K) = Some (Z.of_nat j) ->
  hash k K = Some (Z.of_nat (Z.to_nat (Z.of_nat j mod K))).
Proof.
  intros Hk HK Hh. unfold hash in *.
  destruct (rem_nonneg_spec k (2 * K) Hk ltac:(lia)) as [H2 _].
  destruct (rem_nonneg_spec k K Hk HK) as [H1 _].
  rewrite H2 in Hh. injection Hh as Hh. rewrite H1. f_equal.
  rewrite Z.rem_mod_nonneg in * by lia.
  rewrite Z2Nat.id by (apply Z.mod_pos_bound; lia).
  rewrite <- Hh. symmetry. apply Z.mod_mod_divide. exists 2. lia.
Qed.

Lemma insert_vsize_mono (d : Z) (t t' : HashTable) :
  insert d t = Some t' -> vsize (table_ t) <= vsize (table_ t').
Proof.
  intros Hins.
  apply insert_inv in Hins as [(_ & _ & Happ)|(_ & t1 & Hres & _ & Happ)];
    apply bucket_append_vsize in Happ; rewrite Happ; [lia|].
  apply resize_inv in Hres as (Hlen & _). unfold vsize. lia.
Qed.

Lemma insert_all_vsize_mono (ks : list Z) (t t' : HashTable) :
  insert_all ks t = Some t' -> vsize (table_ t) <= vsize (table_ t').
Proof.
  revert t. induction ks as [|d ks IH]; intros t; simpl.
  - intros [= <-]. lia.
  - destruct (insert d t) as [t1|] eqn:H1; [|discriminate]. simpl.
    intros H2. apply insert_vsize_mono in H1. apply IH in H2. lia.
Qed.

(** One insert keeps every bucket equal to the selection, in insertion
    order, of the keys inserted so far. *)
Lemma buckets_in_order_step (pre : list Z) (d : Z) (t t' : HashTable) :
  Forall (fun k => 0 <= k) pre ->
  1 <= vsize (table_ t) -> vsize (table_ t') <= Int.INT_MAX ->
  (forall j, bucket_keys (table_ t) j
             = keys_hashing_to (vsize (table_ t)) j pre) ->
  insert d t = Some t' ->
  forall j, bucket_keys (table_ t') j
            = keys_hashing_to (vsize (table_ t')) j (pre ++ [d]).
Proof.
  intros Hpre Hpos Hfit Hord Hins j.
  pose proof (insert_vsize_mono d t t' Hins) as Hmono.
  rewrite keys_hashing_to_app.
  apply insert_inv in Hins as [(_ & _ & Happ)|(_ & t1 & Hres & _ & Happ)];
    rewrite (bucket_append_keys_hashing_to _ _ _ j Happ);
    apply bucket_append_vsize in Happ; rewrite Happ in *.
  - rewrite of_size_t_small by lia. rewrite Hord. reflexivity.
  - rewrite of_size_t_small by lia. f_equal.
    rewrite (resize_bucket_keys t t1 j Hres).
    apply resize_inv in Hres as (Hlen & _).
    assert (Hv : vsize (table_ t1) = 2 * vsize (table_ t))
      by (unfold vsize; lia).
    rewrite of_size_t_small by lia. rewrite Hv in *.
    unfold print. rewrite print_as_buckets.
    rewrite (map_ext _ (fun i => keys_hashing_to (vsize (table_ t)) i pre))
      by (intros i; apply Hord).
    rewrite (keys_hashing_to_concat (vsize (table_ t)) (2 * vsize (table_ t))
               j (Z.to_nat (Z.of_nat j mod vsize (table_ t))) pre).
    + destruct (decide (_ ∈ seq 0 (length (table_ t)))) as [_|Hout];
        [reflexivity|].
      exfalso. apply Hout, elem_of_seq.
      pose proof (Z.mod_pos_bound (Z.of_nat j) (vsize (table_ t))
                    ltac:(lia)).
      unfold vsize in *. lia.
    + intros k Hk Hh. apply hash_halved; [|lia|exact Hh].
      rewrite Forall_forall in Hpre. apply Hpre, Hk.
    + apply NoDup_seq.
Qed.

Lemma buckets_in_order_run (ks pre : list Z) (t t' : HashTable) :
  Forall (fun k => 0 <= k) (pre ++ ks) ->
  1 <= vsize (table_ t) -> vsize (table_ t') <= Int.INT_MAX ->
  (forall j, bucket_keys (table_ t) j
             = keys_hashing_to (vsize (table_ t)) j pre) ->
  insert_all ks t = Some t' ->
  forall j, bucket_keys (table_ t') j
            = keys_hashing_to (vsize (table_ t')) j (pre ++ ks).
Proof.
  revert pre t. induction ks as [|d ks IH]; intros pre t Hnn Hpos Hfit Hord.
  - simpl. intros [= <-]. rewrite app_nil_r. exact Hord.
  - simpl. destruct (insert d t) as [t1|] eqn:H1; [|discriminate]. simpl.
    intros H2.
    replace (pre ++ d :: ks) with ((pre ++ [d]) ++ ks) in *
      by (rewrite <- (assoc_L (++)); reflexivity).
    pose proof (insert_vsize_mono d t t1 H1) as Hm1.
    pose proof (insert_all_vsize_mono ks t1 t' H2) as Hm2.
    apply (IH (pre ++ [d]) t1); try assumption; [lia|].
    apply (buckets_in_order_step pre d t t1); try assumption; [|lia].
    apply Forall_app in Hnn as [Hnn _].
    apply Forall_app in Hnn as [Hnn _]. exact Hnn.
Qed.

(** X14: after a completed run of inserts of non-negative keys into a
    fresh table, whatever resizes happened on the way, bucket [j] holds
    exactly the inserted keys whose remainder by the current bucket count
    is [j], in the order in which they were inserted (bucket count within
    [int]). *)
Theorem buckets_hold_inserted_keys_in_order
    (cap : Z) (ks : list Z) (t : HashTable) (j : nat) :
  Forall (fun k => 0 <= k) ks ->
  insert_all ks (HashTable_new cap) = Some t ->
  vsize (table_ t) <= Int.INT_MAX ->
  bucket_keys (table_ t) j = keys_hashing_to (vsize (table_ t)) j ks.
Proof.
  intros Hnn Hrun Hfit.
  apply (buckets_in_order_run ks [] (HashTable_new cap) t); try assumption.
  - rewrite vsize_new. lia.
  - intros i. simpl. apply bucket_keys_replicate.
Qed.

Lemma buckets_hold_inserted_keys_in_order_witness :
  exists t,
    insert_all main_keys (HashTable_new 1) = Some t /\
    bucket_keys (table_ t) 1 = keys_hashing_to (vsize (table_ t)) 1 main_keys.
Proof.
  eexists.
  cut (insert_all main_keys (HashTable_new 1)
       = Some (mkHashTable 13
                 (<[1%nat := node 1 (node 1 (node 1 nullptr))]>
                    (<[2%nat := node 2 nullptr]>
                       (<[3%nat := node 3 nullptr]>
                          (<[12%nat := node 12 nullptr]>
                             (<[15%nat := node 15 nullptr]>
                                (replicate 20 nullptr)))))))).
  - intros Hrun. split; [exact Hrun|].
    apply (buckets_hold_inserted_keys_in_order 1 main_keys _ 1).
    + unfold main_keys. repeat constructor; lia.
    + exact Hrun.
    + vm_compute. discriminate.
  - vm_compute. reflexivity.
Defined.

(** * The prefix tree *)

Lemma index_of_Some (c : Ascii.ascii) (i : nat) :
  PrefixTree.index_of c = Some i ->
  (i < 26)%nat /\ c = Ascii.ascii_of_nat (97 + i).
Proof.
  unfold PrefixTree.index_of.
  destruct (Z.leb_spec 0 (Z.of_nat (Ascii.nat_of_ascii c) - 97));
    destruct (Z.ltb_spec (Z.of_nat (Ascii.nat_of_ascii c) - 97) 26);
    cbn [andb]; try discriminate.
  intros [= <-]. split; [lia|].
  replace (97 + Z.to_nat (Z.of_nat (Ascii.nat_of_ascii c) - 97))%nat
    with (Ascii.nat_of_ascii c) by lia.
  symmetry. apply Ascii.ascii_nat_embedding.
Qed.

Lemma index_of_letter (i : nat) :
  (i < 26)%nat ->
  PrefixTree.index_of (Ascii.ascii_of_nat (97 + i)) = Some i.
Proof.
  intros Hi. unfold PrefixTree.index_of.
  rewrite Ascii.nat_ascii_embedding by lia.
  destruct (Z.leb_spec 0 (Z.of_nat (97 + i) - 97)); [|lia].
  destruct (Z.ltb_spec (Z.of_nat (97 + i) - 97) 26); [|lia].
  cbn [andb]. f_equal. lia.
Qed.

Lemma index_of_inj (c c' : Ascii.ascii) (i : nat) :
  PrefixTree.index_of c = Some i -> PrefixTree.index_of c' = Some i ->
  c = c'.
Proof.
  intros H H'. apply index_of_Some in H as [_ ->].
  apply index_of_Some in H' as [_ ->]. reflexivity.
Qed.

Lemma store_same (next : nat -> PrefixTree.TreeNodePtr) (i : nat)
    (p : PrefixTree.TreeNodePtr) :
  PrefixTree.store next i p i = p.
Proof. unfold PrefixTree.store. rewrite Nat.eqb_refl. reflexivity. Qed.

Lemma store_other (next : nat -> PrefixTree.TreeNodePtr) (i j : nat)
    (p : PrefixTree.TreeNodePtr) :
  j <> i -> PrefixTree.store next i p j = next j.
Proof.
  intros Hne. unfold PrefixTree.store.
  destruct (Nat.eqb_spec j i); [contradiction|reflexivity].
Qed.

(** One step of the walk of [insert]. *)
Lemma insert_from_cons (next : nat -> PrefixTree.TreeNodePtr) (cnt : Z)
    (w : bool) (c : Ascii.ascii) (rest : string) (i : nat) :
  PrefixTree.index_of c = Some i ->
  PrefixTree.insert_from (PrefixTree.tree_node next cnt w) (String c rest) =
    (child' ← PrefixTree.insert_from
               (PrefixTree.child_or_new (next i)) rest;
     Some (PrefixTree.tree_node
             (PrefixTree.store
                (match next i with
                 | PrefixTree.null =>
                     PrefixTree.store next i PrefixTree.TreeNode_new
                 | _ => next
                 end) i child') cnt w)).
Proof.
  intros Hi. simpl. rewrite Hi. simpl.
  destruct (next i) as [|n' c' w'] eqn:Hn; simpl; rewrite Hi; simpl.
  - rewrite store_same. reflexivity.
  - rewrite Hn. reflexivity.
Qed.

Lemma child_or_new_not_null (p : PrefixTree.TreeNodePtr) :
  PrefixTree.child_or_new p <> PrefixTree.null.
Proof. destruct p; discriminate. Qed.

Lemma insert_from_cons_inv (curr curr' : PrefixTree.TreeNodePtr)
    (c : Ascii.ascii) (rest : string) :
  PrefixTree.insert_from curr (String c rest) = Some curr' ->
  exists next cnt w i child' next',
    curr = PrefixTree.tree_node next cnt w /\
    PrefixTree.index_of c = Some i /\
    PrefixTree.insert_from
      (PrefixTree.child_or_new (next i)) rest = Some child' /\
    curr' = PrefixTree.tree_node next' cnt w /\
    next' i = child' /\
    (forall j, j <> i -> next' j = next j).
Proof.
  destruct curr as [|next cnt w]; [discriminate|].
  destruct (PrefixTree.index_of c) as [i|] eqn:Hi;
    [|simpl; rewrite Hi; discriminate].
  rewrite (insert_from_cons next cnt w c rest i Hi).
  destruct (PrefixTree.insert_from _ rest) as [child'|] eqn:Hc;
    [|discriminate].
  simpl. intros [= <-].
  eexists next, cnt, w, i, child', _.
  repeat split; try eassumption; try reflexivity.
  - apply store_same.
  - intros j Hne. rewrite store_other by exact Hne.
    destruct (next i); [apply store_other; exact Hne|reflexivity].
Qed.

Lemma insert_from_not_null (curr curr' : PrefixTree.TreeNodePtr)
    (word : string) :
  PrefixTree.insert_from curr word = Some curr' -> curr' <> PrefixTree.null.
Proof.
  destruct word as [|c rest].
  - destruct curr as [|next cnt w]; [discriminate|]. simpl.
    destruct (Int.incr cnt); [|discriminate]. simpl. intros [= <-].
    discriminate.
  - intros H. apply insert_from_cons_inv in H
      as (next & cnt & w & i & child' & next' & _ & _ & _ & -> & _).
    discriminate.
Qed.

Lemma find_from_new (word : string) :
  PrefixTree.lowercase word ->
  PrefixTree.find_from PrefixTree.TreeNode_new word = Some false.
Proof.
  destruct word as [|c rest]; [reflexivity|].
  intros [[i Hi] _]. simpl. rewrite Hi. reflexivity.
Qed.

Lemma find_from_cons (next : nat -> PrefixTree.TreeNodePtr) (cnt : Z)
    (w : bool) (c : Ascii.ascii) (rest : string) (i : nat) :
  PrefixTree.index_of c = Some i ->
  PrefixTree.find_from (PrefixTree.tree_node next cnt w) (String c rest) =
    match next i with
    | PrefixTree.null => Some false
    | p => PrefixTree.find_from p rest
    end.
Proof.
  intros Hi. simpl. rewrite Hi. simpl. destruct (next i); reflexivity.
Qed.

(** [find] of the word just inserted, from any node of the walk. *)
Lemma find_from_insert_from (word : string) :
  forall curr curr',
    PrefixTree.insert_from curr word = Some curr' ->
    PrefixTree.find_from curr' word = Some true.
Proof.
  induction word as [|c rest IH]; intros curr curr' Hins.
  - destruct curr as [|next cnt w]; [discriminate|]. simpl in Hins.
    destruct (Int.incr cnt); [|discriminate]. simpl in Hins.
    injection Hins as <-. reflexivity.
  - apply insert_from_cons_inv in Hins
      as (next & cnt & w & i & child' & next' & -> & Hi & Hc & -> & Hn & _).
    rewrite (find_from_cons next' cnt w c rest i Hi), Hn.
    pose proof (insert_from_not_null _ _ _ Hc) as Hnn.
    destruct child' as [|n1 c1 w1]; [contradiction|].
    eapply IH. exact Hc.
Qed.

(** [find] of any other word is not changed by an insert. *)
Lemma find_from_insert_from_other (word : string) :
  forall word' curr curr',
    word' <> word -> PrefixTree.lowercase word' ->
    PrefixTree.insert_from curr word = Some curr' ->
    PrefixTree.find_from curr' word' = PrefixTree.find_from curr word'.
Proof.
  induction word as [|c rest IH]; intros word' curr curr' Hne Hlow Hins.
  - destruct curr as [|next cnt w]; [discriminate|]. simpl in Hins.
    destruct (Int.incr cnt); [|discriminate]. simpl in Hins.
    injection Hins as <-.
    destruct word' as [|c' rest']; [congruence|reflexivity].
  - apply insert_from_cons_inv in Hins
      as (next & cnt & w & i & child' & next' & -> & Hi & Hc & -> & Hn & Ho).
    destruct word' as [|c' rest']; [reflexivity|].
    destruct Hlow as [[i' Hi'] Hlow].
    rewrite (find_from_cons next' cnt w c' rest' i' Hi').
    rewrite (find_from_cons next cnt w c' rest' i' Hi').
    destruct (Nat.eq_dec i' i) as [->|Hdiff]; [|rewrite Ho by exact Hdiff;
                                                  reflexivity].
    assert (c' = c) as -> by (eapply index_of_inj; eassumption).
    assert (Hne' : rest' <> rest) by congruence.
    rewrite Hn.
    pose proof (insert_from_not_null _ _ _ Hc) as Hnn.
    destruct child' as [|n1 c1 w1]; [contradiction|].
    rewrite (IH rest' _ _ Hne' Hlow Hc).
    destruct (next i); [apply find_from_new; exact Hlow|reflexivity].
Qed.

Lemma cnt_at_new (word : string) :
  PrefixTree.cnt_at PrefixTree.TreeNode_new word = 0.
Proof.
  destruct word as [|c rest]; [reflexivity|]. simpl.
  destruct (PrefixTree.index_of c); reflexivity.
Qed.

Lemma cnt_at_null (word : string) :
  PrefixTree.cnt_at PrefixTree.null word = 0.
Proof. destruct word; reflexivity. Qed.

Lemma cnt_at_child (p : PrefixTree.TreeNodePtr) (word : string) :
  PrefixTree.cnt_at
    (PrefixTree.child_or_new p) word = PrefixTree.cnt_at p word.
Proof.
  destruct p; [|reflexivity]. rewrite cnt_at_new, cnt_at_null. reflexivity.
Qed.

(** The walk of [insert] completes on a word over ['a'..'z'] whose counter
    has room. *)
Lemma insert_from_succeeds (word : string) :
  forall curr,
    curr <> PrefixTree.null -> PrefixTree.lowercase word ->
    PrefixTree.cnt_at curr word < Int.INT_MAX ->
    exists curr', PrefixTree.insert_from curr word = Some curr'.
Proof.
  induction word as [|c rest IH]; intros curr Hnn Hlow Hcnt;
    destruct curr as [|next cnt w]; try contradiction.
  - simpl in *.
    assert (Hi : Int.incr cnt = Some (cnt + 1))
      by (apply incr_Some; auto).
    rewrite Hi. simpl. eauto.
  - destruct Hlow as [[i Hi] Hlow].
    rewrite (insert_from_cons next cnt w c rest i Hi).
    simpl in Hcnt. rewrite Hi in Hcnt.
    destruct (IH (PrefixTree.child_or_new (next i))) as [child' Hc].
    + apply child_or_new_not_null.
    + exact Hlow.
    + rewrite cnt_at_child. exact Hcnt.
    + rewrite Hc. simpl. eauto.
Qed.

Lemma cnt_at_insert_from (word : string) :
  forall curr curr',
    PrefixTree.insert_from curr word = Some curr' ->
    PrefixTree.cnt_at curr' word = PrefixTree.cnt_at curr word + 1.
Proof.
  induction word as [|c rest IH]; intros curr curr' Hins.
  - destruct curr as [|next cnt w]; [discriminate|]. simpl in Hins.
    destruct (Int.incr cnt) as [cnt'|] eqn:Hi; [|discriminate].
    simpl in Hins. injection Hins as <-. apply incr_Some in Hi as [_ ->].
    reflexivity.
  - apply insert_from_cons_inv in Hins
      as (next & cnt & w & i & child' & next' & -> & Hi & Hc & -> & Hn & _).
    simpl. rewrite Hi, Hn, (IH _ _ Hc), cnt_at_child. reflexivity.
Qed.

Lemma cnt_at_insert_from_other (word : string) :
  forall word' curr curr',
    word' <> word ->
    PrefixTree.insert_from curr word = Some curr' ->
    PrefixTree.cnt_at curr' word' = PrefixTree.cnt_at curr word'.
Proof.
  induction word as [|c rest IH]; intros word' curr curr' Hne Hins.
  - destruct curr as [|next cnt w]; [discriminate|]. simpl in Hins.
    destruct (Int.incr cnt); [|discriminate]. simpl in Hins.
    injection Hins as <-.
    destruct word' as [|c' rest']; [congruence|reflexivity].
  - apply insert_from_cons_inv in Hins
      as (next & cnt & w & i & child' & next' & -> & Hi & Hc & -> & Hn & Ho).
    destruct word' as [|c' rest']; [reflexivity|]. simpl.
    destruct (PrefixTree.index_of c') as [i'|] eqn:Hi'; [|reflexivity].
    destruct (Nat.eq_dec i' i) as [->|Hdiff];
      [|rewrite Ho by exact Hdiff; reflexivity].
    assert (c' = c) as -> by (eapply index_of_inj; eassumption).
    assert (Hne' : rest' <> rest) by congruence.
    rewrite Hn, (IH rest' _ _ Hne' Hc), cnt_at_child. reflexivity.
Qed.

Lemma classic_lowercase (word : string) :
  PrefixTree.lowercase word \/ ~ PrefixTree.lowercase word.
Proof.
  induction word as [|c rest [IH|IH]]; simpl.
  - left. exact I.
  - destruct (PrefixTree.index_of c) as [i|] eqn:Hi.
    + left. split; [eauto|exact IH].
    + right. intros [[i Hi'] _]. discriminate.
  - right. intros [_ Hr]. contradiction.
Qed.

(** A word with a character outside ['a'..'z'] makes the walk of [insert]
    index [next] out of bounds. *)
Lemma insert_from_not_lowercase (word : string) :
  forall curr,
    ~ PrefixTree.lowercase word -> PrefixTree.insert_from curr word = None.
Proof.
  induction word as [|c rest IH]; intros curr Hlow.
  - exfalso. apply Hlow. exact I.
  - destruct (PrefixTree.insert_from curr (String c rest)) as [curr'|] eqn:H;
      [exfalso|reflexivity].
    apply insert_from_cons_inv in H
      as (next & cnt & w & i & child' & next' & -> & Hi & Hc & _).
    apply Hlow. split; [eauto|].
    destruct (classic_lowercase rest) as [Hr|Hr]; [exact Hr|].
    rewrite (IH _ Hr) in Hc. discriminate.
Qed.

Lemma string_app_snoc (p : string) (c : Ascii.ascii) (r : string) :
  (p +:+ String c EmptyString) +:+ r = p +:+ String c r.
Proof.
  induction p as [|a p IH]; [reflexivity|].
  change (String a ((p +:+ String c EmptyString) +:+ r)
          = String a (p +:+ String c r)).
  rewrite IH. reflexivity.
Qed.

(** What a [find] that returns true went through at its first step. *)
Lemma find_from_true_cons (curr : PrefixTree.TreeNodePtr)
    (c : Ascii.ascii) (rest : string) :
  PrefixTree.find_from curr (String c rest) = Some true ->
  exists next cnt w i,
    curr = PrefixTree.tree_node next cnt w /\
    PrefixTree.index_of c = Some i /\
    next i <> PrefixTree.null /\
    PrefixTree.find_from (next i) rest = Some true.
Proof.
  destruct curr as [|next cnt w]; [discriminate|].
  destruct (PrefixTree.index_of c) as [i|] eqn:Hi;
    [|simpl; rewrite Hi; discriminate].
  rewrite (find_from_cons next cnt w c rest i Hi).
  intros H. exists next, cnt, w, i.
  destruct (next i) as [|n1 c1 w1] eqn:Hn; [discriminate|].
  repeat split; try assumption; try reflexivity. discriminate.
Qed.

(** What [dfs] adds to [ans], given the [path] it starts with: the path
    extended by each non-empty word that [find] finds from [root]. *)
Lemma dfs_spec (root : PrefixTree.TreeNodePtr) :
  forall (path w : string),
    w ∈ PrefixTree.dfs root path <->
    exists s, s <> EmptyString /\ w = path +:+ s /\
              PrefixTree.find_from root s = Some true.
Proof.
  induction root as [|next IH cnt wd]; intros path w.
  - simpl. split; [intros H; inversion H|].
    intros (s & Hs & _ & Hf). destruct s; [congruence|discriminate].
  - cbn [PrefixTree.dfs]. rewrite list_elem_of_In, in_flat_map. split.
    + intros (i & Hi & Hw). apply in_seq in Hi.
      pose proof (index_of_letter i ltac:(lia)) as Hidx.
      destruct (next i) as [|n1 c1 w1] eqn:Hn; [inversion Hw|].
      apply in_app_or in Hw as [Hw|Hw].
      * destruct w1; [|inversion Hw].
        destruct Hw as [<-|[]].
        exists (String (Ascii.ascii_of_nat (97 + i)) EmptyString).
        split; [discriminate|]. split; [reflexivity|].
        rewrite (find_from_cons next cnt wd _ _ i Hidx), Hn. reflexivity.
      * apply list_elem_of_In in Hw. rewrite <- Hn in Hw.
        apply IH in Hw as (s & Hs & -> & Hf).
        exists (String (Ascii.ascii_of_nat (97 + i)) s).
        split; [discriminate|]. split; [apply string_app_snoc|].
        rewrite (find_from_cons next cnt wd _ _ i Hidx), Hn.
        rewrite <- Hn. exact Hf.
    + intros (s & Hs & -> & Hf). destruct s as [|c r]; [congruence|].
      apply find_from_true_cons in Hf
        as (next0 & cnt0 & w0 & i & [= <- <- <-] & Hi & Hnn & Hf).
      apply index_of_Some in Hi as [Hlt ->].
      exists i. split; [apply in_seq; lia|].
      destruct (next i) as [|n1 c1 w1] eqn:Hn; [contradiction|].
      apply in_or_app. destruct r as [|c' r'].
      * left. simpl in Hf. injection Hf as ->. left. reflexivity.
      * right. apply list_elem_of_In. rewrite <- Hn. apply IH.
        exists (String c' r'). split; [discriminate|].
        split; [symmetry; apply string_app_snoc|]. rewrite Hn. exact Hf.
Qed.

Lemma find_from_total (word : string) :
  forall curr,
    curr <> PrefixTree.null -> PrefixTree.lowercase word ->
    exists b, PrefixTree.find_from curr word = Some b.
Proof.
  induction word as [|c rest IH]; intros curr Hnn Hlow;
    destruct curr as [|next cnt w]; try contradiction.
  - simpl. eauto.
  - destruct Hlow as [[i Hi] Hlow].
    rewrite (find_from_cons next cnt w c rest i Hi).
    destruct (next i) as [|n1 c1 w1] eqn:Hn; [eauto|].
    apply IH; [discriminate|exact Hlow].
Qed.

Lemma find_from_true_lowercase (word : string) :
  forall curr,
    PrefixTree.find_from curr word = Some true -> PrefixTree.lowercase word.
Proof.
  induction word as [|c rest IH]; intros curr Hf; [exact I|].
  apply find_from_true_cons in Hf
    as (next & cnt & w & i & _ & Hi & _ & Hf).
  split; [eauto|]. eapply IH. exact Hf.
Qed.

(** A run of inserts from a tree whose counters are at most [n]. *)
Lemma trie_run (ws : list string) :
  forall (root : PrefixTree.TreeNodePtr) (n : Z),
    root <> PrefixTree.null ->
    Forall PrefixTree.lowercase ws ->
    (forall w, PrefixTree.cnt_at root w <= n) ->
    n + Z.of_nat (length ws) <= Int.INT_MAX ->
    exists root',
      PrefixTree.insert_all ws root = Some root' /\
      root' <> PrefixTree.null /\
      forall w, PrefixTree.lowercase w ->
        (PrefixTree.find w root' = Some true <->
         w ∈ ws \/ PrefixTree.find w root = Some true).
Proof.
  induction ws as [|w1 ws IH]; intros root n Hnn Hlow Hcnt Hlen.
  - exists root. simpl. split; [reflexivity|]. split; [exact Hnn|].
    intros w _. split; [auto|]. intros [Hin|Hf]; [inversion Hin|exact Hf].
  - apply Forall_cons in Hlow as [Hl1 Hlow]. simpl length in Hlen.
    destruct (insert_from_succeeds w1 root Hnn Hl1) as [root1 H1].
    { specialize (Hcnt w1). lia. }
    destruct (IH root1 (n + 1)) as (root' & Hrun & Hnn' & Hfind).
    + eapply insert_from_not_null. exact H1.
    + exact Hlow.
    + intros w. destruct (String.string_dec w w1) as [->|Hne].
      * rewrite (cnt_at_insert_from _ _ _ H1). specialize (Hcnt w1). lia.
      * rewrite (cnt_at_insert_from_other _ _ _ _ Hne H1).
        specialize (Hcnt w). lia.
    + lia.
    + exists root'. simpl. unfold PrefixTree.insert at 1. rewrite H1. simpl.
      split; [exact Hrun|]. split; [exact Hnn'|].
      intros w Hw. rewrite (Hfind w Hw). unfold PrefixTree.find.
      destruct (String.string_dec w w1) as [->|Hne].
      * rewrite (find_from_insert_from _ _ _ H1). split; [|auto].
        intros _. left. left.
      * rewrite (find_from_insert_from_other _ _ _ _ Hne Hw H1).
        rewrite elem_of_cons. tauto.
Qed.

(** X15: on a tree whose root exists, inserting a word over ['a'..'z']
    whose counter is below [INT_MAX] completes, and [find] of that word
    then returns true. *)
Theorem trie_find_after_insert (word : string) (root : PrefixTree.TreeNodePtr) :
  root <> PrefixTree.null -> PrefixTree.lowercase word ->
  PrefixTree.cnt_at root word < Int.INT_MAX ->
  exists root',
    PrefixTree.insert word root = Some root' /\
    PrefixTree.find word root' = Some true.
Proof.
  intros Hnn Hlow Hcnt.
  destruct (insert_from_succeeds word root Hnn Hlow Hcnt) as [root' Hins].
  exists root'. split; [exact Hins|].
  eapply find_from_insert_from. exact Hins.
Qed.

Lemma lowercase_abc : PrefixTree.lowercase "abc".
Proof. simpl. repeat split; eexists; reflexivity. Defined.

Lemma trie_find_after_insert_witness :
  exists root',
    PrefixTree.insert "abc" PrefixTree.PrefixTree_new = Some root' /\
    PrefixTree.find "abc" root' = Some true.
Proof.
  apply (trie_find_after_insert "abc" PrefixTree.PrefixTree_new).
  - discriminate.
  - exact lowercase_abc.
  - reflexivity.
Defined.

(** X16: an insert changes the answer of [find] for no other word over
    ['a'..'z']: words stored before stay found, words not stored stay not
    found, prefixes and extensions of the inserted word included. *)
Theorem trie_insert_keeps_other_words
    (word word' : string) (root root' : PrefixTree.TreeNodePtr) :
  word' <> word -> PrefixTree.lowercase word' ->
  PrefixTree.insert word root = Some root' ->
  PrefixTree.find word' root' = PrefixTree.find word' root.
Proof.
  intros Hne Hlow Hins. unfold PrefixTree.find.
  eapply find_from_insert_from_other; eassumption.
Qed.

Lemma trie_insert_keeps_other_words_witness :
  exists root',
    PrefixTree.insert "abcd" PrefixTree.PrefixTree_new = Some root' /\
    PrefixTree.find "abc" root'
    = PrefixTree.find "abc" PrefixTree.PrefixTree_new.
Proof.
  destruct (insert_from_succeeds "abcd" PrefixTree.PrefixTree_new)
    as [root' Hins].
  - discriminate.
  - simpl. repeat split; eexists; reflexivity.
  - reflexivity.
  - exists root'. split; [exact Hins|].
    apply (trie_insert_keeps_other_words "abcd" "abc" _ root').
    + discriminate.
    + exact lowercase_abc.
    + exact Hins.
Defined.

Lemma dfs_membership (root : PrefixTree.TreeNodePtr) (w : string) :
  w ∈ PrefixTree.get_all_words root <->
  w <> EmptyString /\ PrefixTree.find w root = Some true.
Proof.
  unfold PrefixTree.get_all_words, PrefixTree.find. rewrite dfs_spec.
  split.
  - intros (s & Hs & -> & Hf). auto.
  - intros [Hw Hf]. exists w. auto.
Qed.

(** X17: [get_all_words] lists exactly the non-empty words that [find]
    finds; the empty word, which [insert] and [find] accept, is never
    listed.  More generally [dfs] from any node adds to [ans] the [path] it
    was given, extended by each non-empty word found from that node. *)
Theorem trie_get_all_words_spec (root : PrefixTree.TreeNodePtr) :
  (forall w,
     w ∈ PrefixTree.get_all_words root <->
     w <> EmptyString /\ PrefixTree.find w root = Some true) /\
  (forall path w,
     w ∈ PrefixTree.dfs root path <->
     exists s, s <> EmptyString /\ w = path +:+ s /\
               PrefixTree.find_from root s = Some true).
Proof.
  split.
  - intros w. apply dfs_membership.
  - intros path w. apply dfs_spec.
Qed.

(** X18: a run of inserts of words over ['a'..'z'] into a new tree always
    completes (short of [INT_MAX] inserts); afterwards [find] answers
    membership in the inserted words exactly, for every word over
    ['a'..'z'], and [get_all_words] lists the non-empty inserted words and
    nothing else. *)
Theorem trie_find_is_membership (ws : list string) :
  Forall PrefixTree.lowercase ws ->
  Z.of_nat (length ws) <= Int.INT_MAX ->
  exists root,
    PrefixTree.insert_all ws PrefixTree.PrefixTree_new = Some root /\
    (forall w, PrefixTree.lowercase w ->
       PrefixTree.find w root = Some (bool_decide (w ∈ ws))) /\
    (forall w, w ∈ PrefixTree.get_all_words root <->
               w <> EmptyString /\ w ∈ ws).
Proof.
  intros Hlow Hlen.
  destruct (trie_run ws PrefixTree.PrefixTree_new 0)
    as (root & Hrun & Hnn & Hfind).
  - discriminate.
  - exact Hlow.
  - intros w. unfold PrefixTree.PrefixTree_new. rewrite cnt_at_new. lia.
  - lia.
  - assert (Hmem : forall w, PrefixTree.lowercase w ->
              (PrefixTree.find w root = Some true <-> w ∈ ws)).
    { intros w Hw. rewrite (Hfind w Hw). unfold PrefixTree.find.
      unfold PrefixTree.PrefixTree_new. rewrite (find_from_new w Hw).
      split; [intros [H|H]; [exact H|discriminate]|auto]. }
    exists root. split; [exact Hrun|]. split.
    + intros w Hw. destruct (find_from_total w root Hnn Hw) as [b Hb].
      unfold PrefixTree.find in *. rewrite Hb. f_equal.
      specialize (Hmem w Hw). rewrite Hb in Hmem.
      destruct b.
      * symmetry. apply bool_decide_eq_true_2, Hmem. reflexivity.
      * symmetry. apply bool_decide_eq_false_2. intros Hin.
        apply Hmem in Hin. discriminate.
    + intros w. rewrite dfs_membership. split.
      * intros [Hw Hf]. split; [exact Hw|].
        apply Hmem; [|exact Hf].
        eapply find_from_true_lowercase. exact Hf.
      * intros [Hw Hin]. split; [exact Hw|]. apply Hmem; [|exact Hin].
        rewrite Forall_forall in Hlow. apply Hlow, Hin.
Qed.

Lemma trie_find_is_membership_witness :
  exists root,
    PrefixTree.insert_all ["abc"; "aac"; "def"] PrefixTree.PrefixTree_new
    = Some root /\
    (forall w, PrefixTree.lowercase w ->
       PrefixTree.find w root
       = Some (bool_decide (w ∈ ["abc"; "aac"; "def"]))) /\
    (forall w, w ∈ PrefixTree.get_all_words root <->
               w <> EmptyString /\ w ∈ ["abc"; "aac"; "def"]).
Proof.
  apply (trie_find_is_membership ["abc"; "aac"; "def"]).
  - repeat constructor; eexists; reflexivity.
  - vm_compute. discriminate.
Defined.

(** X19: a word with a character outside ['a'..'z'] (an upper-case letter,
    a digit, a space) makes [insert] index the child array out of bounds:
    the call has undefined behaviour, whatever the tree. *)
Theorem trie_insert_undefined_outside_alphabet
    (word : string) (root : PrefixTree.TreeNodePtr) :
  ~ PrefixTree.lowercase word ->
  PrefixTree.insert word root = None.
Proof.
  intros Hlow. unfold PrefixTree.insert.
  apply insert_from_not_lowercase. exact Hlow.
Qed.

Lemma trie_insert_undefined_outside_alphabet_witness :
  PrefixTree.insert "aB" PrefixTree.PrefixTree_new = None.
Proof.
  apply (trie_insert_undefined_outside_alphabet "aB").
  intros (_ & [i Hi] & _). vm_compute in Hi. discriminate.
Defined.

(** ** [get_all_words] lists no word twice *)

Lemma NoDup_flat_map {A B : Type} (f : A -> list B) (l : list A) :
  NoDup l ->
  (forall x, x ∈ l -> NoDup (f x)) ->
  (forall x y z, x ∈ l -> y ∈ l -> x <> y -> z ∈ f x -> z ∉ f y) ->
  NoDup (flat_map f l).
Proof.
  induction l as [|a l IH]; intros Hnd Hf Hdis; simpl; [constructor|].
  apply NoDup_cons in Hnd as [Ha Hnd]. apply NoDup_app. split; [|split].
  - apply Hf. left.
  - intros z Hz Hin. apply list_elem_of_In, in_flat_map in Hin
      as (y & Hy & Hzy). apply list_elem_of_In in Hy, Hzy.
    apply (Hdis a y z); [left|right; exact Hy| |exact Hz|exact Hzy].
    intros ->. contradiction.
  - apply IH; [exact Hnd| |].
    + intros x Hx. apply Hf. right. exact Hx.
    + intros x y z Hx Hy. apply Hdis; right; assumption.
Qed.

Lemma string_app_nil_r (p : string) : p +:+ EmptyString = p.
Proof.
  induction p as [|a p IH]; [reflexivity|].
  change (String a (p +:+ EmptyString) = String a p). rewrite IH.
  reflexivity.
Qed.

Lemma letter_inj (i j : nat) :
  (i < 26)%nat -> (j < 26)%nat ->
  Ascii.ascii_of_nat (97 + i) = Ascii.ascii_of_nat (97 + j) -> i = j.
Proof.
  intros Hi Hj Heq.
  apply (f_equal Ascii.nat_of_ascii) in Heq.
  rewrite !Ascii.nat_ascii_embedding in Heq by lia. lia.
Qed.

Lemma dfs_NoDup (root : PrefixTree.TreeNodePtr) :
  forall path, NoDup (PrefixTree.dfs root path).
Proof.
  induction root as [|next IH cnt wd]; intros path; [constructor|].
  cbn [PrefixTree.dfs].
  assert (Hshape : forall i z,
            z ∈ match next i with
                | PrefixTree.null => []
                | PrefixTree.tree_node _ _ w =>
                    (if w
                     then [path +:+ String (Ascii.ascii_of_nat (97 + i))
                                      EmptyString]
                     else [])
                    ++ PrefixTree.dfs (next i)
                         (path +:+ String (Ascii.ascii_of_nat (97 + i))
                                     EmptyString)
                end ->
            exists s, z = path +:+ String (Ascii.ascii_of_nat (97 + i)) s).
  { intros i z Hz. destruct (next i) as [|n1 c1 w1] eqn:Hn; [inversion Hz|].
    apply elem_of_app in Hz as [Hz|Hz].
    - destruct w1; [|inversion Hz]. apply list_elem_of_singleton in Hz.
      exists EmptyString. exact Hz.
    - rewrite <- Hn in Hz. apply dfs_spec in Hz as (s & _ & -> & _).
      exists s. apply string_app_snoc. }
  apply NoDup_flat_map.
  - apply NoDup_seq.
  - intros i _. destruct (next i) as [|n1 c1 w1] eqn:Hn; [constructor|].
    apply NoDup_app. split; [|split].
    + destruct w1; [apply NoDup_singleton|constructor].
    + intros z Hz Hin. destruct w1; [|inversion Hz].
      apply list_elem_of_singleton in Hz as ->.
      rewrite <- Hn in Hin. apply dfs_spec in Hin as (s & Hs & Heq & _).
      rewrite <- (string_app_nil_r
                    (path +:+ String (Ascii.ascii_of_nat (97 + i))
                                EmptyString)) in Heq at 1.
      apply String.app_inj in Heq. congruence.
    + rewrite <- Hn. apply IH.
  - intros i j z Hi Hj Hne Hzi Hzj.
    apply elem_of_seq in Hi, Hj.
    apply Hshape in Hzi as [si ->]. apply Hshape in Hzj as [sj Heq].
    apply String.app_inj in Heq. injection Heq as Hc _.
    apply Hne. apply letter_inj; [lia|lia|exact Hc].
Qed.

(** X20: [get_all_words] lists every word at most once, however often it
    was inserted; so does [dfs] from any node with any starting path. *)
Theorem trie_get_all_words_nodup (root : PrefixTree.TreeNodePtr) :
  NoDup (PrefixTree.get_all_words root) /\
  forall path, NoDup (PrefixTree.dfs root path).
Proof.
  split; [unfold PrefixTree.get_all_words|intros path]; apply dfs_NoDup.
Qed.

(** * The adjacency structure built by [CreateGraph] *)

Lemma neighbours_add_neighbour (ans : GraphCode.Graph) (x y u v : Z) :
  v ∈ GraphCode.neighbours (GraphCode.add_neighbour ans x y) u <->
  v ∈ GraphCode.neighbours ans u \/ (u = x /\ v = y).
Proof.
  unfold GraphCode.add_neighbour, GraphCode.neighbours.
  destruct (decide (u = x)) as [->|Hne].
  - rewrite lookup_insert_eq. simpl. rewrite elem_of_union, elem_of_singleton.
    tauto.
  - rewrite lookup_insert_ne by congruence. split; [auto|].
    intros [H|[H _]]; [exact H|contradiction].
Qed.

Lemma node_add_neighbour (ans : GraphCode.Graph) (x y u : Z) :
  is_Some (GraphCode.add_neighbour ans x y !! u) <->
  is_Some (ans !! u) \/ u = x.
Proof.
  unfold GraphCode.add_neighbour.
  destruct (decide (u = x)) as [->|Hne].
  - rewrite lookup_insert_eq. split; [auto|eauto].
  - rewrite lookup_insert_ne by congruence. split; [auto|].
    intros [H|H]; [exact H|contradiction].
Qed.

Lemma create_graph_fold (edges : list GraphCode.Edge) :
  forall (ans : GraphCode.Graph) (u v : Z),
    (v ∈ GraphCode.neighbours
           (foldl (fun ans edge =>
                     GraphCode.add_neighbour
                       (GraphCode.add_neighbour ans
                          (GraphCode.a edge) (GraphCode.b edge))
                       (GraphCode.b edge) (GraphCode.a edge))
                  ans edges) u <->
     v ∈ GraphCode.neighbours ans u \/
     exists e, e ∈ edges /\
       ((GraphCode.a e = u /\ GraphCode.b e = v) \/
        (GraphCode.b e = u /\ GraphCode.a e = v))) /\
    (is_Some (foldl (fun ans edge =>
                       GraphCode.add_neighbour
                         (GraphCode.add_neighbour ans
                            (GraphCode.a edge) (GraphCode.b edge))
                         (GraphCode.b edge) (GraphCode.a edge))
                    ans edges !! u) <->
     is_Some (ans !! u) \/
     exists e, e ∈ edges /\ (GraphCode.a e = u \/ GraphCode.b e = u)).
Proof.
  induction edges as [|e es IH]; intros ans u v; simpl.
  - split; (split; [auto|]); intros [H|(e & He & _)]; try exact H;
      inversion He.
  - destruct (IH (GraphCode.add_neighbour
                    (GraphCode.add_neighbour ans
                       (GraphCode.a e) (GraphCode.b e))
                    (GraphCode.b e) (GraphCode.a e)) u v) as [IHn IHk].
    split.
    + rewrite IHn, !neighbours_add_neighbour. split.
      * intros [[[H|[-> ->]]|[-> ->]]|(e' & He' & Hcase)].
        -- left. exact H.
        -- right. exists e. split; [left|]. left. auto.
        -- right. exists e. split; [left|]. right. auto.
        -- right. exists e'. split; [right; exact He'|exact Hcase].
      * intros [H|(e' & He' & Hcase)]; [auto|].
        apply elem_of_cons in He' as [->|He'].
        -- left. destruct Hcase as [[<- <-]|[<- <-]]; auto.
        -- right. exists e'. auto.
    + rewrite IHk, !node_add_neighbour. split.
      * intros [[[H| ->]| ->]|(e' & He' & Hcase)].
        -- left. exact H.
        -- right. exists e. split; [left|]. auto.
        -- right. exists e. split; [left|]. auto.
        -- right. exists e'. split; [right; exact He'|exact Hcase].
      * intros [H|(e' & He' & Hcase)]; [auto|].
        apply elem_of_cons in He' as [->|He'].
        -- left. destruct Hcase as [<-|<-]; auto.
        -- right. exists e'. auto.
Qed.

(** X21: the graph that [CreateGraph] builds is the undirected graph of
    the edge list.  [v] is stored as a neighbour of [u] exactly when the
    list holds an edge between them, in either direction (so the
    neighbour relation is symmetric), and [u] is a key of the map exactly
    when it is an endpoint of some edge. *)
Theorem create_graph_is_undirected (edges : list GraphCode.Edge) (u v : Z) :
  (v ∈ GraphCode.neighbours (GraphCode.CreateGraph edges) u <->
   exists e, e ∈ edges /\
     ((GraphCode.a e = u /\ GraphCode.b e = v) \/
      (GraphCode.b e = u /\ GraphCode.a e = v))) /\
  (v ∈ GraphCode.neighbours (GraphCode.CreateGraph edges) u <->
   u ∈ GraphCode.neighbours (GraphCode.CreateGraph edges) v) /\
  (is_Some (GraphCode.CreateGraph edges !! u) <->
   exists e, e ∈ edges /\ (GraphCode.a e = u \/ GraphCode.b e = u)).
Proof.
  unfold GraphCode.CreateGraph.
  assert (Hadj : forall x y,
            y ∈ GraphCode.neighbours
                  (foldl (fun ans edge =>
                            GraphCode.add_neighbour
                              (GraphCode.add_neighbour ans
                                 (GraphCode.a edge) (GraphCode.b edge))
                              (GraphCode.b edge) (GraphCode.a edge))
                         ∅ edges) x <->
            exists e, e ∈ edges /\
              ((GraphCode.a e = x /\ GraphCode.b e = y) \/
               (GraphCode.b e = x /\ GraphCode.a e = y))).
  { intros x y. destruct (create_graph_fold edges ∅ x y) as [Hn _].
    rewrite Hn. unfold GraphCode.neighbours at 1. rewrite lookup_empty.
    simpl. split; [intros [H|H]; [set_solver|exact H]|auto]. }
  split; [apply Hadj|]. split.
  - rewrite !Hadj. split; intros (e & He & Hcase); exists e; tauto.
  - destruct (create_graph_fold edges ∅ u v) as [_ Hk]. rewrite Hk.
    rewrite lookup_empty. split; [intros [[x H]|H]; [discriminate|exact H]|auto].
Qed.
